(** * Product description generator: batch orchestration engine

    A shallow embedding of the pipeline module ([MODEL_PRICING], [loadCsv],
    [processCSV]), of [src/generator.js] ([callOpenAI], [generateDescription])
    and of [prompts.js] ([productDescriptionPrompt]).

    Conventions of the embedding.
    - A CSV row is the JavaScript object csv-parser yields: a finite map from
      column name to string.  [row["Handle"]] is a lookup giving [None] where
      JavaScript gives [undefined].  A string is a sequence of code units
      below 256.
    - JavaScript numbers are IEEE-754 binary64 values: the token totals and the
      cost are primitive floats, computed with the operations the source uses.
    - The outside world is explicit: the file system, the generation service and
      the order in which pending promises settle are parameters.  A schedule
      lists the scheduler's choices, so a statement about every schedule is a
      statement about every interleaving the event loop can produce.
    - [written] is the list of rows handed to [outStream.write], in order.
      The writer fixes the columns of the file by the first row it is handed;
      [stored] gives the rows a later load of the file yields.  The text of
      the CSV format is not modelled: a value is taken to be read back as it
      was written, and a row as one line that is not empty, which is so in a
      file of two columns or more.
    - p-retry and p-limit are packages the program depends on.  They are
      modelled by their documented contracts, next to the calls that use
      them. *)

From Stdlib Require Import ZArith NArith QArith Qabs Ascii String.
From Stdlib.Strings Require Import Byte.
From Stdlib Require Import PrimFloat SpecFloat FloatOps FloatAxioms.
From stdpp Require Import base option list gmap strings pretty.

Set Warnings "-inexact-float".

(** ** JavaScript values used by the program *)

(** How a thrown error is classified by the retry helper: it retries every
    error except a [TypeError] that it does not take for a network failure. *)
Inductive ErrorClass :=
| PlainError
| NetworkTypeError
| OtherTypeError.

#[global] Instance ErrorClass_eq_dec : EqDecision ErrorClass.
Proof. solve_decision. Defined.

(** A thrown [Error]: the program itself only ever reads [err.message]. *)
Record Error := { message : string; errorClass : ErrorClass }.

(** The [TypeError] the engine throws when a property of [undefined] or [null]
    is read. *)
Definition typeError (msg : string) : Error :=
  {| message := msg; errorClass := OtherTypeError |}.

(** The settlement of a promise, or the result of code that may throw. *)
Inductive Result (A : Type) :=
| Resolved (a : A)
| Rejected (e : Error).
Arguments Resolved {A} a.
Arguments Rejected {A} e.

(** A CSV row object. *)
Abbreviation Row := (gmap string string).

(** Truthiness of a property read [obj[key]]: [undefined] and [""] are falsy. *)
Definition truthy (v : option string) : bool :=
  match v with
  | Some s => negb (String.eqb s "")
  | None => false
  end.

(** [`${v}`] and string concatenation of a possibly undefined value. *)
Definition toStr (v : option string) : string := default "undefined" v.

(** [s.startsWith(p)] *)
Definition startsWith (s p : string) : bool := String.prefix p s.

(** White space and line terminators removed by [String.prototype.trim], among
    the code units below 256: TAB, LF, VT, FF, CR, SPACE and NO-BREAK SPACE. *)
Definition isWhiteSpace (c : ascii) : bool :=
  let n := nat_of_ascii c in
  ((9 <=? n) && (n <=? 13)) || (n =? 32) || (n =? 160).

Fixpoint trimStart (s : string) : string :=
  match s with
  | String c s' => if isWhiteSpace c then trimStart s' else s
  | EmptyString => EmptyString
  end.

Definition trimEnd (s : string) : string := String.rev (trimStart (String.rev s)).

(** [s.trim()] *)
Definition trim (s : string) : string := trimEnd (trimStart s).

(** *** [Buffer.prototype.toString("base64")] *)

Definition base64Alphabet : string :=
  "ABCDEFGHIJKLMNOPQRSTUVWXYZabcdefghijklmnopqrstuvwxyz0123456789+/".

Definition base64Char (sextet : N) : ascii :=
  default "="%char (String.get (N.to_nat sextet) base64Alphabet).

Definition sextet (group : N) (k : N) : ascii :=
  base64Char (N.land (N.shiftr group (6 * k)) 63).

Fixpoint base64 (bytes : list byte) : string :=
  match bytes with
  | [] => ""
  | [a] =>
      let g := N.shiftl (Byte.to_N a) 16 in
      String (sextet g 3) (String (sextet g 2) "==")
  | [a; b] =>
      let g := N.lor (N.shiftl (Byte.to_N a) 16) (N.shiftl (Byte.to_N b) 8) in
      String (sextet g 3) (String (sextet g 2) (String (sextet g 1) "="))
  | a :: b :: c :: rest =>
      let g := N.lor (N.lor (N.shiftl (Byte.to_N a) 16) (N.shiftl (Byte.to_N b) 8))
                     (Byte.to_N c) in
      String (sextet g 3) (String (sextet g 2) (String (sextet g 1)
        (String (sextet g 0) (base64 rest))))
  end.

(** ** The file system *)

(** What [fs.createReadStream(file).pipe(csv())] emits: a run of ["data"] events
    closed by ["end"] or by ["error"] of the parser, or cut short by an
    ["error"] event of the file stream behind it. *)
Inductive StreamEnd :=
| StreamEnded
| StreamFailed (e : Error)
| ReadFailed (e : Error).

Record CsvStream := { streamRows : list Row; streamEnd : StreamEnd }.

Record FileSystem := {
  existsSync : string -> bool;
  (** [None]: the read throws. *)
  readFileSync : string -> option (list byte);
  csvStream : string -> CsvStream;
}.

(** ** [loadCsv] (pipeline module) *)

(** The ["data"] handler: [rows.push(row)]. *)
Definition onData (rows : list Row) (row : Row) : list Row := rows ++ [row].

(** The settlement of the promise [loadCsv] returns.  [None]: it never
    settles.  The handlers are attached to the parser, so an ["error"] event of
    the file stream has no listener: it is thrown as an uncaught exception. *)
Definition loadCsv (fsys : FileSystem) (file : string) : option (Result (list Row)) :=
  let rows := [] in
  if negb (existsSync fsys file) then Some (Resolved rows)
  else
    let s := csvStream fsys file in
    let rows := foldl onData rows (streamRows s) in
    match streamEnd s with
    | StreamEnded => Some (Resolved rows)
    | StreamFailed e => Some (Rejected e)
    | ReadFailed _ => None
    end.

(** The uncaught exception that ends the process while [file] is loaded. *)
Definition uncaughtWhileLoading (fsys : FileSystem) (file : string) : option Error :=
  if negb (existsSync fsys file) then None
  else
    match streamEnd (csvStream fsys file) with
    | ReadFailed e => Some e
    | _ => None
    end.

(** ** Console output *)

(** The lines the program prints, kept as structured events. *)
Inductive LogLine :=
| LogSkipping (position total : nat) (title : option string)
| LogProcessing (position total : nat) (title : option string)
| LogRowError (position : nat) (msg : string)
| WarnImage (imageUrl : string)
| WarnAttempt (attemptNumber retriesLeft : nat)
| LogDone (outputFile : string)
| LogUsage (promptTokens completionTokens : float)
| LogCost (total input output : option string).

(** ** [productDescriptionPrompt] (prompts.js) *)

Definition newline : string := String (ascii_of_nat 10) "".

(** [brandPhrases] is the array exported by [brandPhrases.js]. *)
Definition productDescriptionPrompt (brandPhrases : list string)
    (title vendor category type tags : option string) : string :=
  String.concat newline
    [ "";
      "  You are a marketing AI. Write a compelling product description.";
      "";
      "  Title: " +:+ toStr title;
      "  Vendor: " +:+ toStr vendor;
      "  Category: " +:+ toStr category;
      "  Type: " +:+ toStr type;
      "  Tags: " +:+ toStr tags;
      "  Brand phrases: " +:+ String.concat ", " brandPhrases;
      "";
      "  Don't send back a title, just send a description.";
      "";
      "  Keep it professional, engaging, and under 150 words.";
      "  " ].

(** ** The generation service *)

Inductive ContentPart :=
| TextPart (text : string)
| ImageUrlPart (url : string).

Record Message := { role : string; content : list ContentPart }.

(** The argument of [client.chat.completions.create]. *)
Record Request := { model : string; messages : list Message; max_tokens : N }.

(** [response.usage] *)
Record Usage := { prompt_tokens : float; completion_tokens : float }.

(** The fields of the response the program reads: [response.choices], each
    choice given by its [message.content] ([None] for [null]), and
    [response.usage], which every answer of the service carries. *)
Record Completion := { choices : list (option string); responseUsage : Usage }.

(** The service as the program meets it: the answer to the request sent by the
    [attemptNumber]-th attempt of the unit of work for input row [index]. *)
Definition API := nat -> nat -> Request -> Result Completion.

Record GenerationResult := { description : string; usage : Usage }.

(** [callOpenAI] (generator.js) *)
Definition callOpenAI (api : API) (index attemptNumber : nat)
    (messages : list Message) : Result GenerationResult :=
  match api index attemptNumber
          {| model := "gpt-4o-mini"; messages := messages; max_tokens := 250 |} with
  | Resolved response =>
      match choices response with
      | Some text :: _ =>
          Resolved {| description := trim text; usage := responseUsage response |}
      | None :: _ =>
          Rejected (typeError "Cannot read properties of null (reading 'trim')")
      | [] =>
          Rejected (typeError "Cannot read properties of undefined (reading 'message')")
      end
  | Rejected e => Rejected e
  end.

(** ** The retry helper *)

(** The error handed to [onFailedAttempt]: the thrown error decorated with
    [attemptNumber] and [retriesLeft]. *)
Record FailedAttemptError :=
  { failure : Error; attemptNumber : nat; retriesLeft : nat }.

Record RetryOptions := {
  retries : nat;
  factor : N;
  minTimeout : N;
  maxTimeout : N;
  onFailedAttempt : FailedAttemptError -> list LogLine;
}.

(** What one call of the helper did. *)
Record RetryRun (A : Type) := {
  settled : Result A;
  invocations : nat;
  waits : list N;
  warnings : list LogLine;
}.
Arguments settled {A} _.
Arguments invocations {A} _.
Arguments waits {A} _.
Arguments warnings {A} _.

(** Delay in milliseconds before the retry that follows attempt [attemptNumber]. *)
Definition backoff (options : RetryOptions) (attemptNumber : nat) : N :=
  N.min (N.max (minTimeout options) 1 * factor options ^ N.of_nat (attemptNumber - 1))
        (maxTimeout options).

(** The errors at which the helper gives up at once:
    [error instanceof TypeError && !isNetworkError(error)]. *)
Definition endsRetrying (e : Error) : bool :=
  bool_decide (errorClass e = OtherTypeError).

(** [left] is the number of retries still allowed after this attempt. *)
Fixpoint retryFrom {A : Type} (input : nat -> Result A) (options : RetryOptions)
    (left attemptNumber : nat) : RetryRun A :=
  match input attemptNumber with
  | Resolved a =>
      {| settled := Resolved a; invocations := 1; waits := []; warnings := [] |}
  | Rejected e =>
      if endsRetrying e then
        {| settled := Rejected e; invocations := 1; waits := []; warnings := [] |}
      else
        let warned :=
          onFailedAttempt options
            {| failure := e; attemptNumber := attemptNumber; retriesLeft := left |} in
        match left with
        | O => {| settled := Rejected e; invocations := 1; waits := [];
                  warnings := warned |}
        | S left' =>
            let rest := retryFrom input options left' (S attemptNumber) in
            {| settled := settled rest;
               invocations := S (invocations rest);
               waits := backoff options attemptNumber :: waits rest;
               warnings := warned ++ warnings rest |}
        end
  end.

(** [pRetry(input, options)] of the p-retry package.  Its contract: [input] is
    called with the attempt number, once and then, while it rejects, up to
    [options.retries] more times, after a delay that grows by [factor] from
    [minTimeout] up to [maxTimeout]; [onFailedAttempt] sees each retried
    failure with its attempt number and the retries left; the rejection of the
    last attempt is the rejection of the whole call.  A [TypeError] that is not
    a network failure is not retried: the call rejects with it at once.
    Two points differ between the releases of the package, and no property
    below depends on either: whether [onFailedAttempt] is called for the error
    that is not retried (here it is not), and which error the call rejects
    with when the attempts failed with different messages (here the last; the
    releases that collect the errors take the one whose message came most
    often, which is the last when the attempts fail alike). *)
Definition pRetry {A : Type} (input : nat -> Result A) (options : RetryOptions)
    : RetryRun A :=
  retryFrom input options (retries options) 1.

(** ** [generateDescription] (generator.js) *)

(** The image part of the request, and the warning printed when the local file
    exists but cannot be read. *)
Definition imageContent (fsys : FileSystem) (imageUrl : option string)
    : list ContentPart * list LogLine :=
  match imageUrl with
  | Some url =>
      if truthy imageUrl && startsWith url "http" then
        ([ImageUrlPart url], [])
      else if truthy imageUrl && existsSync fsys url then
        match readFileSync fsys url with
        | Some bytes =>
            ([ImageUrlPart ("data:image/jpeg;base64," +:+ base64 bytes)], [])
        | None => ([], [WarnImage url])
        end
      else ([], [])
  | None => ([], [])
  end.

(** The prompt of lines 39-45. *)
Definition promptFor (brandPhrases : list string) (row : Row) : string :=
  productDescriptionPrompt brandPhrases
    (row !! "Title") (row !! "Vendor") (row !! "Product Category")
    (row !! "Type") (row !! "Tags").

(** The [messages] array of lines 48-53 with [parts] pushed after the text. *)
Definition userMessage (prompt : string) (parts : list ContentPart) : list Message :=
  [ {| role := "user"; content := TextPart prompt :: parts |} ].

Definition buildMessages (brandPhrases : list string) (fsys : FileSystem)
    (row : Row) : list Message * list LogLine :=
  let prompt := promptFor brandPhrases row in
  let image := imageContent fsys (row !! "Image Src") in
  (userMessage prompt image.1, image.2).

(** The options object of the call at generator.js:75-84. *)
Definition retryOptions : RetryOptions :=
  {| retries := 5;
     factor := 2;
     minTimeout := 1000;
     maxTimeout := 10000;
     onFailedAttempt := fun error =>
       [WarnAttempt (attemptNumber error) (retriesLeft error)] |}.

(** [index] names the calling task to the service.  The result is what the
    returned promise settles with, together with what the call did on the way:
    invocations of [callOpenAI], delays waited, lines printed. *)
Definition generateDescription (brandPhrases : list string) (fsys : FileSystem)
    (api : API) (index : nat) (row : Row) : RetryRun GenerationResult :=
  let built := buildMessages brandPhrases fsys row in
  let run := pRetry (fun attempt => callOpenAI api index attempt built.1)
                    retryOptions in
  {| settled := settled run;
     invocations := invocations run;
     waits := waits run;
     warnings := built.2 ++ warnings run |}.

(** ** Cost estimation (pipeline module) *)

Record Pricing := { input : float; output : float }.

(** Model pricing for cost estimation, in dollars per million tokens. *)
Definition MODEL_PRICING : gmap string Pricing :=
  {[ "gpt-4o-mini" := {| input := 0.150; output := 0.600 |} ]}.

Record Cost := { inputCost : float; outputCost : float; totalCost : float }.

(** The property names an object literal inherits from [Object.prototype]. *)
Definition inheritedNames : list string :=
  [ "constructor"; "__defineGetter__"; "__defineSetter__"; "hasOwnProperty";
    "__lookupGetter__"; "__lookupSetter__"; "isPrototypeOf";
    "propertyIsEnumerable"; "toString"; "valueOf"; "__proto__";
    "toLocaleString" ].

(** [MODEL_PRICING[model]] with the fields [.input] and [.output] as the
    arithmetic of lines 105-106 sees them.  An inherited name gives a function
    or an object without these fields: they read as [undefined], which the
    multiplication converts to NaN.  [None]: [MODEL_PRICING[model]] is
    [undefined]. *)
Definition ratesOf (model : string) : option Pricing :=
  match MODEL_PRICING !! model with
  | Some pricing => Some pricing
  | None =>
      if bool_decide (model ∈ inheritedNames)
      then Some {| input := nan; output := nan |}
      else None
  end.

(** Lines 105-107.  Reading [.input] of [undefined] throws. *)
Definition estimateCost (totalPromptTokens totalCompletionTokens : float)
    (model : string) : Result Cost :=
  match ratesOf model with
  | Some pricing =>
      let inputCost := (totalPromptTokens / 1000000 * input pricing)%float in
      let outputCost := (totalCompletionTokens / 1000000 * output pricing)%float in
      let totalCost := (inputCost + outputCost)%float in
      Resolved {| inputCost := inputCost; outputCost := outputCost;
                  totalCost := totalCost |}
  | None =>
      Rejected (typeError "Cannot read properties of undefined (reading 'input')")
  end.

(** The decimal digits of [n], with the point placed before the last
    [fractionDigits] of them. *)
Definition placePoint (fractionDigits : nat) (n : Z) : string :=
  let digits := pretty n in
  let padded :=
    String.concat "" (replicate (S fractionDigits - String.length digits) "0")
      +:+ digits in
  let whole := String.length padded - fractionDigits in
  match fractionDigits with
  | O => padded
  | S _ =>
      substring 0 whole padded +:+ "." +:+ substring whole fractionDigits padded
  end.

(** [x.toFixed(fractionDigits)]: the integer [n] with [n / 10^fractionDigits]
    nearest to [x], the larger one on a tie.  [None] stands for the values of
    magnitude [1e21] and above, which JavaScript prints in exponent notation. *)
Definition toFixed (fractionDigits : nat) (x : float) : option string :=
  match Prim2SF x with
  | S754_nan => Some "NaN"
  | S754_infinity sign => Some (if sign then "-Infinity" else "Infinity")
  | S754_zero _ => Some (placePoint fractionDigits 0)
  | S754_finite sign m e =>
      let scaled := (Z.pos m * 10 ^ Z.of_nat fractionDigits)%Z in
      let tooLarge :=
        if (0 <=? e)%Z then (10 ^ 21 <=? Z.pos m * 2 ^ e)%Z
        else (10 ^ 21 * 2 ^ (- e) <=? Z.pos m)%Z in
      let n :=
        if (0 <=? e)%Z then (scaled * 2 ^ e)%Z
        else ((2 * scaled + 2 ^ (- e)) / 2 ^ (- e + 1))%Z in
      if tooLarge then None
      else Some ((if sign then "-" else "") +:+ placePoint fractionDigits n)
  end.

(** ** [processCSV] (pipeline module) *)

(** [new Map(entries)]: the entries are set in order, a later entry replacing
    an earlier one with the same key. *)
Definition newMap {V : Type} (entries : list (option string * V))
    : gmap (option string) V :=
  foldl (fun m entry => <[ entry.1 := entry.2 ]> m) ∅ entries.

(** Lines 45-47. *)
Definition existingMapOf (existingRows : list Row) : gmap (option string) Row :=
  newMap ((fun row => (row !! "Handle", row)) <$> existingRows).

(** The test of line 68:
    [existingMap.has(row["Handle"]) &&
     existingMap.get(row["Handle"])["Product Description"]]. *)
Definition alreadyDone (existingMap : gmap (option string) Row) (row : Row) : bool :=
  match existingMap !! (row !! "Handle") with
  | Some existing => truthy (existing !! "Product Description")
  | None => false
  end.

(** One callback of [inputRows.map((row, index) => limit(async () => ...))]. *)
Record Task := { taskIndex : nat; taskRow : Row }.

(** Where a started task stands: its body has returned (the skip branch), or it
    awaits [generateDescription]. *)
Inductive Phase :=
| Returned
| Awaiting.

#[global] Instance Phase_eq_dec : EqDecision Phase.
Proof. solve_decision. Defined.

(** The state of a run between two turns of the event loop.  [settledTasks] is
    bookkeeping of the model: for each task settled so far, in order of
    settlement, its index and the number of invocations of the service it
    made. *)
Record RunState := {
  queue : list Task;
  active : list (Task * Phase);
  written : list Row;
  totalPromptTokens : float;
  totalCompletionTokens : float;
  console : list LogLine;
  settledTasks : list (nat * nat);
}.

(** Invocations of the service made by the tasks settled so far. *)
Definition apiCalls (s : RunState) : nat := sum_list (snd <$> settledTasks s).

(** Started tasks whose generation is pending. *)
Definition inFlight (s : RunState) : nat :=
  length (filter (fun started => started.2 = Awaiting) (active s)).

(** [pLimit(2)].  The contract of the p-limit package: [limit(fn)] queues
    [fn]; a queued function is started, in submission order, when fewer than
    [concurrency] started ones are unsettled; a started one gives its place
    back when its promise settles. *)
Definition concurrency : nat := 2.

(** What the event loop does next: the limiter starts the task at the head of
    its queue, or the started task in position [slot] settles. *)
Inductive Choice :=
| Dequeue
| Settle (slot : nat).

Section Run.
Variable brandPhrases : list string.
Variable fsys : FileSystem.
Variable api : API.
Variable existingMap : gmap (option string) Row.
(** [inputRows.length] *)
Variable total : nat.

(** The body of a task up to its first [await] (lines 67-77). *)
Definition startTask (t : Task) (s : RunState) : RunState :=
  let skip := alreadyDone existingMap (taskRow t) in
  {| queue := tail (queue s);
     active := active s ++ [(t, if skip then Returned else Awaiting)];
     written := written s;
     totalPromptTokens := totalPromptTokens s;
     totalCompletionTokens := totalCompletionTokens s;
     console := console s ++
       [(if skip then LogSkipping else LogProcessing)
          (taskIndex t + 1) total (taskRow t !! "Title")];
     settledTasks := settledTasks s |}.

(** The rest of the body once [generateDescription] has settled
    (lines 77-95), and the release of the task's slot. *)
Definition settleTask (slot : nat) (t : Task) (phase : Phase) (s : RunState)
    : RunState :=
  match phase with
  | Returned =>
      {| queue := queue s;
         active := delete slot (active s);
         written := written s;
         totalPromptTokens := totalPromptTokens s;
         totalCompletionTokens := totalCompletionTokens s;
         console := console s;
         settledTasks := settledTasks s ++ [(taskIndex t, 0)] |}
  | Awaiting =>
      let g := generateDescription brandPhrases fsys api (taskIndex t) (taskRow t) in
      match settled g with
      | Resolved result =>
          {| queue := queue s;
             active := delete slot (active s);
             written := written s ++
               [<[ "Product Description" := description result ]> (taskRow t)];
             totalPromptTokens :=
               (totalPromptTokens s + prompt_tokens (usage result))%float;
             totalCompletionTokens :=
               (totalCompletionTokens s + completion_tokens (usage result))%float;
             console := console s ++ warnings g;
             settledTasks := settledTasks s ++ [(taskIndex t, invocations g)] |}
      | Rejected err =>
          {| queue := queue s;
             active := delete slot (active s);
             written := written s ++
               [<[ "Product Description" := "ERROR: " +:+ message err ]> (taskRow t)];
             totalPromptTokens := totalPromptTokens s;
             totalCompletionTokens := totalCompletionTokens s;
             console := console s ++ warnings g ++
               [LogRowError (taskIndex t + 1) (message err)];
             settledTasks := settledTasks s ++ [(taskIndex t, invocations g)] |}
      end
  end.

(** One turn.  [None]: the choice is not open in this state (the queue is
    empty or both slots are taken; no started task stands in that slot). *)
Definition step (c : Choice) (s : RunState) : option RunState :=
  match c with
  | Dequeue =>
      match queue s with
      | t :: _ =>
          if decide (length (active s) < concurrency) then Some (startTask t s)
          else None
      | [] => None
      end
  | Settle slot =>
      match active s !! slot with
      | Some (t, phase) => Some (settleTask slot t phase s)
      | None => None
      end
  end.

Fixpoint run (schedule : list Choice) (s : RunState) : option RunState :=
  match schedule with
  | [] => Some s
  | c :: rest =>
      match step c s with
      | Some s' => run rest s'
      | None => None
      end
  end.
End Run.

(** [Promise.all(tasks)] has resolved: every task has settled. *)
Definition allSettled (s : RunState) : bool :=
  bool_decide (queue s = []) && bool_decide (active s = []).

(** [inputRows.map((row, index) => limit(...))]: the tasks in submission order. *)
Definition tasksOf (inputRows : list Row) : list Task :=
  imap (fun index row => {| taskIndex := index; taskRow := row |}) inputRows.

(** The state at line 99: the existing rows are written, every task is queued,
    nothing is started. *)
Definition initialState (inputRows existingRows : list Row) : RunState :=
  {| queue := tasksOf inputRows;
     active := [];
     written := foldl (fun out row => out ++ [row]) [] existingRows;
     totalPromptTokens := 0;
     totalCompletionTokens := 0;
     console := [];
     settledTasks := [] |}.

(** What a run leaves behind: the final state, and the estimate or the error
    thrown while computing it (after the output stream was closed). *)
Record Summary := { final : RunState; estimate : Result Cost; report : list LogLine }.

(** The lines printed at 109-111. *)
Definition reportLines (outputFile : string) (s : RunState) (c : Cost) : list LogLine :=
  [ LogDone outputFile;
    LogUsage (totalPromptTokens s) (totalCompletionTokens s);
    LogCost (toFixed 4 (totalCost c)) (toFixed 4 (inputCost c))
            (toFixed 4 (outputCost c)) ].

(** Lines 44-102 of [processCSV], under a schedule of the event loop: the
    index is built, the existing rows are written, the tasks run until
    [Promise.all] resolves, the stream is closed.  [None]: the schedule is not
    a complete run of the tasks.  In the final state [s], [written s] are the
    rows handed to the writer; the file then holds [stored (written s)], and
    that is what a later run loads as its prior output. *)
Definition processRows (brandPhrases : list string) (fsys : FileSystem) (api : API)
    (schedule : list Choice) (inputRows existingRows : list Row) : option RunState :=
  let existingMap := existingMapOf existingRows in
  match run brandPhrases fsys api existingMap (length inputRows) schedule
            (initialState inputRows existingRows) with
  | Some s => if allSettled s then Some s else None
  | None => None
  end.

(** The columns the writer of line 50 ([format({ headers: true })]) gives the
    file: the keys of the first row it is handed. *)
Definition columnsOf (rows : list Row) : gset string :=
  match rows with
  | first :: _ => dom first
  | [] => ∅
  end.

(** A row as the file holds it: its values under the columns of the file, the
    empty string under a column the row does not have; what the row has under
    any other name is not written. *)
Definition project (columns : gset string) (row : Row) : Row :=
  filter (fun entry => entry.1 ∈ columns) row ∪ gset_to_gmap "" columns.

(** The rows a later [loadCsv] of the output file yields, when [rows] were
    handed to [outStream.write] in this order. *)
Definition stored (rows : list Row) : list Row :=
  project (columnsOf rows) <$> rows.

(** [processCSV(inputFile, outputFile, model)].  [Some (Rejected e)]: a load
    failed, by a rejection that nothing handles or by the uncaught exception
    of a failed read; the process ends with [e] and nothing was written. *)
Definition processCSV (brandPhrases : list string) (fsys : FileSystem) (api : API)
    (schedule : list Choice) (inputFile outputFile model : string)
    : option (Result Summary) :=
  match loadCsv fsys inputFile with
  | None => Rejected <$> uncaughtWhileLoading fsys inputFile
  | Some (Rejected e) => Some (Rejected e)
  | Some (Resolved inputRows) =>
      match loadCsv fsys outputFile with
      | None => Rejected <$> uncaughtWhileLoading fsys outputFile
      | Some (Rejected e) => Some (Rejected e)
      | Some (Resolved existingRows) =>
          s ← processRows brandPhrases fsys api schedule inputRows existingRows;
          let estimate :=
            estimateCost (totalPromptTokens s) (totalCompletionTokens s) model in
          Some (Resolved
            {| final := s;
               estimate := estimate;
               report := match estimate with
                         | Resolved c => reportLines outputFile s c
                         | Rejected _ => []
                         end |})
      end
  end.

(** A schedule that is always open: start a task, let it settle, and so on. *)
Definition oneByOne (n : nat) : list Choice :=
  mjoin (replicate n [Dequeue; Settle 0]).

(** A schedule that completes a run from any state: let the started tasks
    settle, then take the queued ones one by one. *)
Definition drain (s : RunState) : list Choice :=
  replicate (length (active s)) (Settle 0) ++ oneByOne (length (queue s)).

(** ** Accounting used in the proofs *)

Section Ledger.
Variable brandPhrases : list string.
Variable fsys : FileSystem.
Variable api : API.
Variable existingMap : gmap (option string) Row.

(** The row a task writes once its generation has settled. *)
Definition resultRow (t : Task) : Row :=
  match settled (generateDescription brandPhrases fsys api (taskIndex t) (taskRow t)) with
  | Resolved result => <[ "Product Description" := description result ]> (taskRow t)
  | Rejected err => <[ "Product Description" := "ERROR: " +:+ message err ]> (taskRow t)
  end.

(** The phase in which a task is started. *)
Definition phaseOf (t : Task) : Phase :=
  if alreadyDone existingMap (taskRow t) then Returned else Awaiting.

(** What a started task will still write and record when it settles. *)
Definition owedRow (started : Task * Phase) : list Row :=
  match started.2 with
  | Returned => []
  | Awaiting => [resultRow started.1]
  end.

Definition owedSettle (started : Task * Phase) : nat * nat :=
  (taskIndex started.1,
   match started.2 with
   | Returned => 0
   | Awaiting =>
       invocations (generateDescription brandPhrases fsys api
                      (taskIndex started.1) (taskRow started.1))
   end).

Definition begun (t : Task) : Task * Phase := (t, phaseOf t).

(** The same for every task of a state that has not settled. *)
Definition owedRows (s : RunState) : list Row :=
  (active s ≫= owedRow) ++ ((begun <$> queue s) ≫= owedRow).

Definition owedSettles (s : RunState) : list (nat * nat) :=
  (owedSettle <$> active s) ++ (owedSettle <$> (begun <$> queue s)).
End Ledger.

(** The rational number a finite binary64 value stands for. *)
Definition exactValue (x : float) : option Q :=
  match Prim2SF x with
  | S754_zero _ => Some 0%Q
  | S754_finite sign m e =>
      let magnitude :=
        if (0 <=? e)%Z then inject_Z (Z.pos m * 2 ^ e)
        else Qmake (Z.pos m) (Z.to_pos (2 ^ (- e))) in
      Some (if sign then Qopp magnitude else magnitude)
  | _ => None
  end.

(** ** Scenarios *)

Module Scenario.

Definition mug : Row :=
  {[ "Handle" := "mug"; "Title" := "Stoneware mug";
     "Image Src" := "https://example.com/mug.jpg" ]}.

Definition lamp : Row :=
  {[ "Handle" := "lamp"; "Title" := "Desk lamp"; "Image Src" := "images/lamp.jpg" ]}.

(** A row carried over from an earlier run. *)
Definition vase : Row :=
  {[ "Handle" := "vase"; "Product Description" := "A clear glass vase." ]}.

(** Rows of an earlier run that stopped before the description was there. *)
Definition mugPending : Row := <[ "Product Description" := "" ]> mug.

Definition vasePending : Row := <[ "Product Description" := "" ]> vase.

Definition phrases : list string :=
  ["Elevating Everyday Style"; "Crafted with Care"; "Designed for Modern Living"].

(** A disk holding the readable image [images/lamp.jpg] and nothing else. *)
Definition disk : FileSystem :=
  {| existsSync := fun file => String.eqb file "images/lamp.jpg";
     readFileSync := fun file =>
       if String.eqb file "images/lamp.jpg"
       then Some ["M"%byte; "a"%byte; "n"%byte] else None;
     csvStream := fun _ => {| streamRows := []; streamEnd := StreamEnded |} |}.

Definition outage : Error :=
  {| message := "503 Service Unavailable"; errorClass := PlainError |}.

(** A service that rejects every request. *)
Definition serviceDown : API := fun _ _ _ => Rejected outage.

Definition tokens : Usage := {| prompt_tokens := 120; completion_tokens := 40 |}.

(** A service that answers every request with the same text. *)
Definition serviceSaying (text : string) : API :=
  fun _ _ _ => Resolved {| choices := [Some text]; responseUsage := tokens |}.



(** The state a run ends in, or the empty state when the schedule is not one
    of its runs. *)
Definition outcome (o : option RunState) : RunState := default (initialState [] []) o.

(** Three rows, the first two tasks started. *)
Definition twoStarted : RunState :=
  outcome (run phrases disk (serviceSaying "Sturdy.") ∅ 3 [Dequeue; Dequeue]
             (initialState [mug; lamp; mug] [])).

(** One row whose prior-output record has an empty description. *)
Definition pendingRun : RunState :=
  outcome (processRows phrases disk (serviceSaying "Sturdy.") (oneByOne 1)
             [mug] [mugPending]).

(** Two rows against a service that is down, the second settling first. *)
Definition failedRun : RunState :=
  outcome (processRows phrases disk serviceDown [Dequeue; Dequeue; Settle 1; Settle 0]
             [mug; lamp] [vase]).

(** A first run against a service that answers with blank text, and the run
    resumed from its file. *)
Definition blankRun : RunState :=
  outcome (processRows phrases disk (serviceSaying "  ") (oneByOne 1) [mug] []).

Definition blankResumed : RunState :=
  outcome (processRows phrases disk (serviceSaying "  ") (oneByOne 1) [mug]
             (stored (written blankRun))).

(** A first run that succeeds, and the run resumed from its file against a
    service that is down. *)
Definition goodRun : RunState :=
  outcome (processRows phrases disk (serviceSaying "Sturdy.")
             [Dequeue; Dequeue; Settle 1; Settle 0] [mug; lamp] [vase]).

Definition goodResumed : RunState :=
  outcome (processRows phrases disk serviceDown (oneByOne 2) [mug; lamp]
             (stored (written goodRun))).

End Scenario.

(** ** Further scenarios and notions used by the properties *)

Module Cases.

(** A service that rejects the first two attempts of every task and answers
    the third. *)
Definition serviceFlaky : API :=
  fun _ attemptNumber _ =>
    if attemptNumber <? 3 then Rejected Scenario.outage
    else Resolved {| choices := [Some " Sturdy. "]; responseUsage := Scenario.tokens |}.

(** A service that looks at nothing but the model named in the request. *)
Definition serviceByModel : API :=
  fun _ _ request =>
    if String.eqb (model request) "gpt-4o-mini"
    then Resolved {| choices := [Some "Sturdy."]; responseUsage := Scenario.tokens |}
    else Rejected Scenario.outage.

(** A service whose client throws a [TypeError] that is no network failure on
    every request. *)
Definition serviceBroken : API :=
  fun _ _ _ => Rejected (typeError "Cannot read properties of undefined (reading 'create')").

(** A prior-output row without identifier column, a first run after it, and
    the run resumed from its file. *)
Definition oldStock : Row :=
  {[ "Title" := "Old stock"; "Product Description" := "Kept." ]}.

Definition anonymousRun : RunState :=
  Scenario.outcome
    (processRows Scenario.phrases Scenario.disk (Scenario.serviceSaying "Sturdy.")
       (oneByOne 1) [Scenario.mug] [oldStock]).

Definition anonymousResumed : RunState :=
  Scenario.outcome
    (processRows Scenario.phrases Scenario.disk (Scenario.serviceSaying "Sturdy.")
       (oneByOne 1) [Scenario.mug] (stored (written anonymousRun))).

(** A service whose answers carry no text: the content of the choice is
    [null]. *)
Definition serviceSilent : API :=
  fun _ _ _ => Resolved {| choices := [None]; responseUsage := Scenario.tokens |}.

(** A first run after a prior output without description column, and the run
    resumed from its file. *)
Definition headerlessRun : RunState :=
  Scenario.outcome
    (processRows Scenario.phrases Scenario.disk (Scenario.serviceSaying "Sturdy.")
       (oneByOne 1) [Scenario.mug] [Scenario.mug]).

Definition headerlessResumed : RunState :=
  Scenario.outcome
    (processRows Scenario.phrases Scenario.disk (Scenario.serviceSaying "Sturdy.")
       (oneByOne 1) [Scenario.mug] (stored (written headerlessRun))).


End Cases.


(** Whether a string begins, or ends, with a character [trim] removes. *)
Definition leadingSpace (s : string) : bool :=
  match s with
  | String c _ => isWhiteSpace c
  | EmptyString => false
  end.

Definition trailingSpace (s : string) : bool := leadingSpace (String.rev s).

(** [trimStart] on the list of characters of a string. *)
Fixpoint dropSpace (l : list ascii) : list ascii :=
  match l with
  | c :: l' => if isWhiteSpace c then dropSpace l' else l
  | [] => []
  end.

(** The rows the task of input row [index] writes: none when the row is
    already done or the index is out of range. *)
Definition writtenBy (brandPhrases : list string) (fsys : FileSystem) (api : API)
    (existingMap : gmap (option string) Row) (inputRows : list Row) (index : nat)
    : list Row :=
  match inputRows !! index with
  | Some row =>
      if alreadyDone existingMap row then []
      else [resultRow brandPhrases fsys api {| taskIndex := index; taskRow := row |}]
  | None => []
  end.

(** The input rows that are not already done. *)
Definition pendingRows (existingMap : gmap (option string) Row)
    (inputRows : list Row) : list Row :=
  filter (fun row => alreadyDone existingMap row = false) inputRows.

Module Resumed.

(** The run of [Scenario.failedRun] resumed from its output, against a service
    that now answers. *)
Definition afterFailure : RunState :=
  Scenario.outcome
    (processRows Scenario.phrases Scenario.disk (Scenario.serviceSaying "Sturdy.")
       (oneByOne 2) [Scenario.mug; Scenario.lamp] (written Scenario.failedRun)).


End Resumed.

(** * Properties *)

(** Closes a goal between closed terms by evaluating both sides. *)
Ltac evaluate := vm_compute; reflexivity.

(** Closes a decidable closed goal by evaluating its decision procedure. *)
Ltac decide_by_evaluation := apply (bool_decide_unpack _); vm_compute; exact I.

(** ** Helpers of the embedding, checked on known values *)

Example base64_Man : base64 ["M"%byte; "a"%byte; "n"%byte] = "TWFu".
Proof. reflexivity. Qed.
Example base64_Ma : base64 ["M"%byte; "a"%byte] = "TWE=".
Proof. reflexivity. Qed.
Example base64_M : base64 ["M"%byte] = "TQ==".
Proof. reflexivity. Qed.
Example trim_ex : trim "  a b  " = "a b".
Proof. reflexivity. Qed.

(** ** The dataset loader *)

Lemma foldl_onData (acc rows : list Row) : foldl onData acc rows = acc ++ rows.
Proof.
  revert acc. induction rows as [|row rows IH]; intros acc; simpl.
  - by rewrite app_nil_r.
  - rewrite IH. unfold onData. by rewrite <- app_assoc.
Qed.

Lemma loadCsv_exists (fsys : FileSystem) (file : string) :
  existsSync fsys file = true ->
  loadCsv fsys file =
    match streamEnd (csvStream fsys file) with
    | StreamEnded => Some (Resolved (streamRows (csvStream fsys file)))
    | StreamFailed e => Some (Rejected e)
    | ReadFailed _ => None
    end.
Proof. intros E. unfold loadCsv. rewrite E. simpl. by rewrite foldl_onData. Qed.

(** C8. Loading a path yields the records of the file in file order; a path
    that does not exist yields the empty sequence and no error; a parser that
    fails is the only way the load is rejected; and the load stays unsettled
    exactly when the path exists and reading it fails. *)
Theorem loadCsv_contract (fsys : FileSystem) (file : string) :
  (existsSync fsys file = false -> loadCsv fsys file = Some (Resolved [])) /\
  (existsSync fsys file = true ->
   streamEnd (csvStream fsys file) = StreamEnded ->
   loadCsv fsys file = Some (Resolved (streamRows (csvStream fsys file)))) /\
  (forall e, loadCsv fsys file = Some (Rejected e) ->
   existsSync fsys file = true /\ streamEnd (csvStream fsys file) = StreamFailed e) /\
  (loadCsv fsys file = None <->
   existsSync fsys file = true /\
   exists e, streamEnd (csvStream fsys file) = ReadFailed e).
Proof.
  split; [|split; [|split]].
  - intros E. unfold loadCsv. by rewrite E.
  - intros E Hend. rewrite loadCsv_exists by done. by rewrite Hend.
  - intros e. destruct (existsSync fsys file) eqn:E.
    + rewrite loadCsv_exists by done.
      destruct (streamEnd (csvStream fsys file)); [done| |done]. by intros [= ->].
    + unfold loadCsv. rewrite E. done.
  - destruct (existsSync fsys file) eqn:E.
    + rewrite loadCsv_exists by done.
      destruct (streamEnd (csvStream fsys file)) as [|e|e].
      * split; [done|]. by intros [_ [e ?]].
      * split; [done|]. by intros [_ [e' ?]].
      * split; [|done]. intros _. split; [done|by exists e].
    + unfold loadCsv. rewrite E. simpl. split; [done|]. by intros [? _].
Qed.

(** ** The resume index *)

Lemma newMap_snoc {V : Type} (entries : list (option string * V)) k v :
  newMap (entries ++ [(k, v)]) = <[ k := v ]> (newMap entries).
Proof. unfold newMap. by rewrite foldl_app. Qed.

Lemma existingMapOf_nil : existingMapOf [] = ∅.
Proof. done. Qed.

Lemma existingMapOf_snoc (rows : list Row) (row : Row) :
  existingMapOf (rows ++ [row]) = <[ row !! "Handle" := row ]> (existingMapOf rows).
Proof. unfold existingMapOf. rewrite fmap_app. simpl. apply newMap_snoc. Qed.

(** Rows appended later take precedence. *)
Lemma existingMapOf_app (earlier later : list Row) (h : option string) :
  existingMapOf (earlier ++ later) !! h =
    match existingMapOf later !! h with
    | Some row => Some row
    | None => existingMapOf earlier !! h
    end.
Proof.
  induction later as [|row later IH] using rev_ind.
  - rewrite app_nil_r, existingMapOf_nil, lookup_empty. done.
  - rewrite app_assoc, !existingMapOf_snoc.
    destruct (decide (row !! "Handle" = h)) as [->|Hne].
    + by rewrite !lookup_insert_eq.
    + by rewrite !lookup_insert_ne.
Qed.

Lemma existingMapOf_lookup_Some (rows : list Row) (h : option string) (row : Row) :
  existingMapOf rows !! h = Some row -> row ∈ rows /\ row !! "Handle" = h.
Proof.
  induction rows as [|r rows IH] using rev_ind.
  - by rewrite existingMapOf_nil, lookup_empty.
  - rewrite existingMapOf_snoc.
    destruct (decide (r !! "Handle" = h)) as [<-|Hne].
    + rewrite lookup_insert_eq. intros [= <-].
      split; [apply elem_of_app; right; constructor|done].
    + rewrite lookup_insert_ne by done. intros H. apply IH in H as [? ?].
      split; [apply elem_of_app; by left|done].
Qed.

Lemma existingMapOf_lookup_None (rows : list Row) (h : option string) :
  existingMapOf rows !! h = None <-> Forall (fun row => row !! "Handle" <> h) rows.
Proof.
  induction rows as [|r rows IH] using rev_ind.
  - rewrite existingMapOf_nil, lookup_empty. split; [constructor|done].
  - rewrite existingMapOf_snoc, Forall_app, Forall_singleton.
    destruct (decide (r !! "Handle" = h)) as [<-|Hne].
    + rewrite lookup_insert_eq. split; [done|]. intros [_ ?]. done.
    + rewrite lookup_insert_ne by done. rewrite IH. tauto.
Qed.

(** C10. When several prior-output records share an identifier, the index maps
    it to the last of them in file order, and the skip test of any input row
    with that identifier reads the description of that last record only. *)
Theorem existingMap_last_wins (before after : list Row) (lastRow : Row)
    (h : option string) :
  lastRow !! "Handle" = h ->
  Forall (fun row => row !! "Handle" <> h) after ->
  existingMapOf (before ++ lastRow :: after) !! h = Some lastRow /\
  forall row : Row, row !! "Handle" = h ->
    alreadyDone (existingMapOf (before ++ lastRow :: after)) row
    = truthy (lastRow !! "Product Description").
Proof.
  intros Hh Hafter.
  assert (existingMapOf (before ++ lastRow :: after) !! h = Some lastRow) as Hlook.
  { replace (before ++ lastRow :: after) with ((before ++ [lastRow]) ++ after)
      by (by rewrite <- app_assoc).
    rewrite existingMapOf_app.
    apply existingMapOf_lookup_None in Hafter. rewrite Hafter.
    rewrite existingMapOf_snoc, Hh. apply lookup_insert_eq. }
  split; [done|].
  intros row Hrow. unfold alreadyDone. by rewrite Hrow, Hlook.
Qed.

(** A record for [vase] without description, a later one with it, then one
    for [mug]: the later [vase] is indexed and an input row [vase] is done. *)
Lemma existingMap_last_wins_witness :
  existingMapOf ([Scenario.vasePending] ++ Scenario.vase :: [Scenario.mugPending])
    !! Some "vase" = Some Scenario.vase /\
  alreadyDone
    (existingMapOf ([Scenario.vasePending] ++ Scenario.vase :: [Scenario.mugPending]))
    Scenario.vasePending = true.
Proof.
  assert (Scenario.vase !! "Handle" = Some "vase") as Hh by evaluate.
  assert (Forall (fun row : Row => row !! "Handle" <> Some "vase")
            [Scenario.mugPending]) as Hafter by decide_by_evaluation.
  destruct (existingMap_last_wins [Scenario.vasePending] [Scenario.mugPending]
              Scenario.vase (Some "vase") Hh Hafter) as [Hlook Hskip].
  split; [exact Hlook|].
  rewrite (Hskip Scenario.vasePending) by evaluate. evaluate.
Defined.

(** ** The retry helper and the generation client *)

Lemma retryFrom_invocations_pos {A : Type} (input : nat -> Result A) options left k :
  (1 <= invocations (retryFrom input options left k))%nat.
Proof.
  revert k. induction left as [|left IH]; intros k; simpl;
    destruct (input k) as [a|e]; simpl; try lia;
    destruct (endsRetrying e); simpl; lia.
Qed.

Lemma retryFrom_invocations_le {A : Type} (input : nat -> Result A) options left k :
  (invocations (retryFrom input options left k) <= S left)%nat.
Proof.
  revert k. induction left as [|left IH]; intros k; simpl;
    destruct (input k) as [a|e]; simpl; try lia;
    destruct (endsRetrying e); simpl; try lia.
  specialize (IH (S k)). lia.
Qed.

(** When every attempt it can make is rejected with an error it retries, the
    helper makes the first call and all the retries it is allowed, and rejects
    with the error of the last attempt. *)
Lemma retryFrom_exhausted {A : Type} (input : nat -> Result A) options
    (errs : nat -> Error) left k :
  (forall j, (k <= j <= k + left)%nat ->
     input j = Rejected (errs j) /\ endsRetrying (errs j) = false) ->
  invocations (retryFrom input options left k) = S left /\
  settled (retryFrom input options left k) = Rejected (errs (k + left)%nat) /\
  waits (retryFrom input options left k) = backoff options <$> seq k left.
Proof.
  revert k. induction left as [|left IH]; intros k Hfail; simpl;
    destruct (Hfail k ltac:(lia)) as [-> ->]; simpl.
  - by rewrite Nat.add_0_r.
  - destruct (IH (S k)) as (-> & -> & ->).
    { intros j Hj. apply Hfail. lia. }
    replace (S k + left)%nat with (k + S left)%nat by lia. done.
Qed.

(** An error the helper does not retry ends the call with the attempt that met
    it. *)
Lemma retryFrom_ends {A : Type} (input : nat -> Result A) options left k e :
  input k = Rejected e -> endsRetrying e = true ->
  retryFrom input options left k =
    {| settled := Rejected e; invocations := 1; waits := []; warnings := [] |}.
Proof. intros H He. destruct left; simpl; by rewrite H, He. Qed.

(** A call that resolves at once is the only call. *)
Lemma retryFrom_first_try {A : Type} (input : nat -> Result A) options left k a :
  input k = Resolved a ->
  retryFrom input options left k =
    {| settled := Resolved a; invocations := 1; waits := []; warnings := [] |}.
Proof. intros H. destruct left; simpl; by rewrite H. Qed.

Lemma generateDescription_invocations_pos brandPhrases fsys api index row :
  (1 <= invocations (generateDescription brandPhrases fsys api index row))%nat.
Proof. apply retryFrom_invocations_pos. Qed.

Lemma generateDescription_invocations_le brandPhrases fsys api index row :
  (invocations (generateDescription brandPhrases fsys api index row) <= 6)%nat.
Proof. apply (retryFrom_invocations_le _ retryOptions 5 1). Qed.

(** C1, the claim as stated, fails: against a service that rejects every
    request with an error the helper retries, the underlying call is invoked
    six times, not five; and against one that fails every request with a
    [TypeError] that is no network failure it is invoked once. *)
Lemma retry_bound_five_refuted :
  (forall k request, Scenario.serviceDown 0 k request = Rejected Scenario.outage) /\
  endsRetrying Scenario.outage = false /\
  invocations (generateDescription Scenario.phrases Scenario.disk
                 Scenario.serviceDown 0 Scenario.mug) = 6%nat /\
  invocations (generateDescription Scenario.phrases Scenario.disk
                 Scenario.serviceDown 0 Scenario.mug) <> 5%nat /\
  (forall k request, exists e,
     Cases.serviceBroken 0 k request = Rejected e /\ endsRetrying e = true) /\
  invocations (generateDescription Scenario.phrases Scenario.disk
                 Cases.serviceBroken 0 Scenario.mug) = 1%nat.
Proof.
  split; [done|]. split; [reflexivity|]. split; [reflexivity|].
  split; [vm_compute; lia|]. split; [|reflexivity].
  intros k request. by eexists.
Qed.

(** C1, amended. When the service rejects each of the attempts 1 to 6 of a
    generation call with the error [e], and [e] is an error the helper retries
    (any error but a [TypeError] that is not a network failure), the
    underlying call is invoked exactly 6 times (the first attempt and the 5
    retries of [retries: 5]), waiting 1, 2, 4, 8 and 10 seconds in between;
    [e] is what the call rejects with, unchanged; and the task that awaits it
    settles by writing the row with the error marker, leaving queue and the
    other started tasks as they were. *)
Theorem retry_exhaustion_six_calls (brandPhrases : list string) (fsys : FileSystem)
    (api : API) (index : nat) (row : Row) (e : Error) :
  endsRetrying e = false ->
  (forall k request, (1 <= k <= 6)%nat -> api index k request = Rejected e) ->
  let g := generateDescription brandPhrases fsys api index row in
  invocations g = 6%nat /\
  settled g = Rejected e /\
  waits g = [1000; 2000; 4000; 8000; 10000]%N /\
  forall existingMap total slot s,
    active s !! slot = Some ({| taskIndex := index; taskRow := row |}, Awaiting) ->
    exists s',
      step brandPhrases fsys api existingMap total (Settle slot) s = Some s' /\
      written s' = written s ++
        [<[ "Product Description" := "ERROR: " +:+ message e ]> row] /\
      queue s' = queue s /\
      active s' = delete slot (active s).
Proof.
  intros He Hfail g.
  assert (forall k, (1 <= k <= 1 + 5)%nat ->
            callOpenAI api index k (buildMessages brandPhrases fsys row).1
            = Rejected e /\ endsRetrying e = false) as Hcall.
  { intros k Hk. unfold callOpenAI. by rewrite Hfail. }
  destruct (retryFrom_exhausted _ retryOptions (fun _ => e) 5 1 Hcall)
    as (Hn & Hs & Hw).
  assert (settled g = Rejected e) as Hg by exact Hs.
  split; [exact Hn|]. split; [exact Hg|].
  split; [transitivity (backoff retryOptions <$> seq 1 5); [exact Hw|reflexivity]|].
  intros existingMap total slot s Hslot. eexists. split.
  - unfold step. rewrite Hslot. reflexivity.
  - unfold settleTask. cbn [taskIndex taskRow]. fold g. rewrite Hg. done.
Qed.

(** The service of the scenario is down for good: six calls, then the outage
    is what the caller sees. *)
Lemma retry_exhaustion_six_calls_witness :
  invocations (generateDescription Scenario.phrases Scenario.disk
                 Scenario.serviceDown 0 Scenario.mug) = 6%nat /\
  settled (generateDescription Scenario.phrases Scenario.disk
             Scenario.serviceDown 0 Scenario.mug) = Rejected Scenario.outage.
Proof.
  pose proof (retry_exhaustion_six_calls Scenario.phrases Scenario.disk
                Scenario.serviceDown 0 Scenario.mug Scenario.outage
                eq_refl (fun _ _ _ => eq_refl)) as H.
  simpl in H. destruct H as (H1 & H2 & _). split; [exact H1|exact H2].
Defined.

(** ** Image resolution *)


Lemma truthy_Some (s : string) : truthy (Some s) = true <-> s <> "".
Proof.
  unfold truthy. destruct (String.eqb_spec s ""); simpl; split; congruence.
Qed.



(** ** Cost estimation *)

(** C6, the claim as stated, fails: for 2,000,000 prompt tokens and 1,000,000
    completion tokens the computed total is not the number 0.9 but the binary64
    value just below it. *)
Lemma cost_example_not_exact :
  exists cost,
    estimateCost 2000000 1000000 "gpt-4o-mini" = Resolved cost /\
    PrimFloat.eqb (totalCost cost) 0.9 = false /\
    PrimFloat.ltb (totalCost cost) 0.9 = true.
Proof. eexists. split; [reflexivity|]. split; reflexivity. Qed.

(** C6, amended. For all totals the estimate is the binary64 value of
    [(promptTotal / 1e6) * inputRate + (completionTotal / 1e6) * outputRate] with
    the rates of the model's pricing entry, each operation rounded to nearest.
    For 2,000,000 and 1,000,000 tokens at 0.150 and 0.600 it is
    0.8999999999999999, within 1e-16 of 0.9, and is printed as 0.9000. *)
Theorem cost_formula_binary64 :
  (forall promptTotal completionTotal model pricing,
     MODEL_PRICING !! model = Some pricing ->
     exists cost,
       estimateCost promptTotal completionTotal model = Resolved cost /\
       totalCost cost
       = (promptTotal / 1000000 * input pricing
          + completionTotal / 1000000 * output pricing)%float) /\
  MODEL_PRICING !! "gpt-4o-mini" = Some {| input := 0.150; output := 0.600 |} /\
  exists cost q,
    estimateCost 2000000 1000000 "gpt-4o-mini" = Resolved cost /\
    totalCost cost = 0.89999999999999991%float /\
    exactValue (totalCost cost) = Some q /\
    (Qabs (q - (9 # 10)) < 1 # (10 ^ 16))%Q /\
    toFixed 4 (totalCost cost) = Some "0.9000".
Proof.
  split; [|split].
  - intros promptTotal completionTotal model pricing Hp.
    unfold estimateCost, ratesOf. rewrite Hp. eexists. split; reflexivity.
  - reflexivity.
  - eexists. eexists. split; [reflexivity|]. split; [reflexivity|].
    split; [vm_compute; reflexivity|]. split; [|vm_compute; reflexivity].
    vm_compute. reflexivity.
Qed.

(** ** Runs of the scheduler *)

Lemma elem_of_tasksOf (inputRows : list Row) (t : Task) :
  t ∈ tasksOf inputRows <-> inputRows !! taskIndex t = Some (taskRow t).
Proof.
  unfold tasksOf. rewrite elem_of_lookup_imap. split.
  - intros (i & row & -> & H). done.
  - intros H. exists (taskIndex t), (taskRow t). by destruct t.
Qed.

Lemma tasksOf_indices (inputRows : list Row) :
  taskIndex <$> tasksOf inputRows = seq 0 (length inputRows).
Proof.
  unfold tasksOf. rewrite fmap_imap.
  rewrite (imap_ext _ (fun n _ => n)) by done.
  induction inputRows as [|row rows IH] using rev_ind; [done|].
  rewrite imap_app, length_app, seq_app, IH. simpl.
  by rewrite Nat.add_0_r.
Qed.

Section RunFacts.
Variable brandPhrases : list string.
Variable fsys : FileSystem.
Variable api : API.
Variable existingMap : gmap (option string) Row.
Variable total : nat.

Local Abbreviation step_ := (step brandPhrases fsys api existingMap total).
Local Abbreviation run_ := (run brandPhrases fsys api existingMap total).
Local Abbreviation owedRow_ := (owedRow brandPhrases fsys api).
Local Abbreviation owedSettle_ := (owedSettle brandPhrases fsys api).
Local Abbreviation owedRows_ := (owedRows brandPhrases fsys api existingMap).
Local Abbreviation owedSettles_ := (owedSettles brandPhrases fsys api existingMap).
Local Abbreviation begun_ := (begun existingMap).

Lemma run_app (first rest : list Choice) (s : RunState) :
  run_ (first ++ rest) s = run_ first s ≫= run_ rest.
Proof.
  revert s. induction first as [|c first IH]; intros s; simpl; [done|].
  destruct (step_ c s); simpl; [apply IH|done].
Qed.

Lemma run_cons (c : Choice) (rest : list Choice) (s : RunState) :
  run_ (c :: rest) s = step_ c s ≫= run_ rest.
Proof. simpl. by destruct (step_ c s). Qed.

Lemma startTask_phase (t : Task) (s : RunState) :
  active (startTask existingMap total t s) = active s ++ [begun_ t].
Proof. unfold startTask, begun, phaseOf. simpl. by destruct alreadyDone. Qed.

Lemma settleTask_written slot (t : Task) (phase : Phase) (s : RunState) :
  written (settleTask brandPhrases fsys api slot t phase s)
  = written s ++ owedRow_ (t, phase).
Proof.
  unfold settleTask, owedRow, resultRow. destruct phase; simpl.
  - by rewrite app_nil_r.
  - by destruct (settled _).
Qed.

Lemma settleTask_settled slot (t : Task) (phase : Phase) (s : RunState) :
  settledTasks (settleTask brandPhrases fsys api slot t phase s)
  = settledTasks s ++ [owedSettle_ (t, phase)].
Proof.
  unfold settleTask, owedSettle. destruct phase; simpl; [done|].
  by destruct (settled _).
Qed.

Lemma settleTask_rest slot (t : Task) (phase : Phase) (s : RunState) :
  queue (settleTask brandPhrases fsys api slot t phase s) = queue s /\
  active (settleTask brandPhrases fsys api slot t phase s) = delete slot (active s).
Proof.
  unfold settleTask. destruct phase; simpl; [done|]. by destruct (settled _).
Qed.

(** What a turn writes and records is what the state owed for it. *)
Lemma step_ledger (c : Choice) (s s' : RunState) :
  step_ c s = Some s' ->
  (exists W, written s' = written s ++ W /\ W ++ owedRows_ s' ≡ₚ owedRows_ s) /\
  (exists D, settledTasks s' = settledTasks s ++ D /\
             D ++ owedSettles_ s' ≡ₚ owedSettles_ s).
Proof.
  destruct c as [|slot]; simpl.
  - destruct (queue s) as [|t q] eqn:Hq; [done|].
    case_decide; [|done]. intros [= <-].
    split; exists []; rewrite app_nil_r; (split; [done|]); simpl;
      unfold owedRows, owedSettles; rewrite startTask_phase; simpl; rewrite Hq; simpl.
    + rewrite bind_app, <- app_assoc. simpl. by rewrite app_nil_r.
    + rewrite fmap_app, <- app_assoc. done.
  - destruct (active s !! slot) as [[t phase]|] eqn:Hslot; [|done].
    intros [= <-].
    destruct (settleTask_rest slot t phase s) as [Hq Ha].
    pose proof (delete_Permutation _ _ _ Hslot) as Hperm.
    split.
    + exists (owedRow_ (t, phase)). split; [apply settleTask_written|].
      unfold owedRows. rewrite Hq, Ha, app_assoc.
      rewrite (bind_Permutation owedRow_ _ _ Hperm), bind_cons. done.
    + exists [owedSettle_ (t, phase)]. split; [apply settleTask_settled|].
      unfold owedSettles. rewrite Hq, Ha.
      rewrite (fmap_Permutation owedSettle_ _ _ Hperm). done.
Qed.

Lemma run_ledger (schedule : list Choice) (s s' : RunState) :
  run_ schedule s = Some s' ->
  (exists W, written s' = written s ++ W /\ W ++ owedRows_ s' ≡ₚ owedRows_ s) /\
  (exists D, settledTasks s' = settledTasks s ++ D /\
             D ++ owedSettles_ s' ≡ₚ owedSettles_ s).
Proof.
  revert s. induction schedule as [|c schedule IH]; intros s; simpl.
  - intros [= <-]. split; exists []; by rewrite app_nil_r.
  - destruct (step_ c s) as [s1|] eqn:Hstep; [|done]. intros Hrun.
    destruct (step_ledger _ _ _ Hstep) as [(W1 & Hw1 & Hp1) (D1 & Hd1 & Hq1)].
    destruct (IH _ Hrun) as [(W2 & Hw2 & Hp2) (D2 & Hd2 & Hq2)].
    split.
    + exists (W1 ++ W2). split; [by rewrite Hw2, Hw1, app_assoc|].
      by rewrite <- app_assoc, Hp2.
    + exists (D1 ++ D2). split; [by rewrite Hd2, Hd1, app_assoc|].
      by rewrite <- app_assoc, Hq2.
Qed.

Lemma allSettled_spec (s : RunState) :
  allSettled s = true <-> queue s = [] /\ active s = [].
Proof.
  unfold allSettled. rewrite andb_true_iff, !bool_decide_eq_true. done.
Qed.

(** The limiter never holds more than [concurrency] started tasks. *)
Lemma step_active_bound (c : Choice) (s s' : RunState) :
  step_ c s = Some s' ->
  length (active s) <= concurrency -> length (active s') <= concurrency.
Proof.
  destruct c as [|slot]; simpl.
  - destruct (queue s) as [|t q]; [done|]. case_decide; [|done].
    intros [= <-] _. rewrite startTask_phase, length_app. simpl. lia.
  - destruct (active s !! slot) as [[t phase]|] eqn:Hslot; [|done].
    intros [= <-] Hb. destruct (settleTask_rest slot t phase s) as [_ ->].
    rewrite length_delete by eauto. lia.
Qed.

Lemma run_active_bound (schedule : list Choice) (s s' : RunState) :
  run_ schedule s = Some s' ->
  length (active s) <= concurrency -> length (active s') <= concurrency.
Proof.
  revert s. induction schedule as [|c schedule IH]; intros s; simpl.
  - by intros [= <-].
  - destruct (step_ c s) as [s1|] eqn:Hstep; [|done]. intros Hrun Hb.
    eapply IH; [done|]. by eapply step_active_bound.
Qed.

(** Every turn makes progress: a task leaves the queue or a started task
    settles, so a run of [n] tasks takes exactly [2 * n] turns. *)
Lemma run_turns (schedule : list Choice) (s s' : RunState) :
  run_ schedule s = Some s' ->
  length schedule + 2 * length (queue s') + length (active s')
  = 2 * length (queue s) + length (active s).
Proof.
  revert s. induction schedule as [|c schedule IH]; intros s; simpl.
  - by intros [= <-].
  - destruct (step_ c s) as [s1|] eqn:Hstep; [|done]. intros Hrun.
    apply IH in Hrun. revert Hstep. destruct c as [|slot]; simpl.
    + destruct (queue s) as [|t q] eqn:Hq; [done|]. case_decide; [|done].
      intros [= <-]. rewrite startTask_phase, length_app in Hrun.
      simpl in Hrun. rewrite Hq in Hrun. simpl in *. lia.
    + destruct (active s !! slot) as [[t phase]|] eqn:Hslot; [|done].
      intros [= <-]. destruct (settleTask_rest slot t phase s) as [Hq Ha].
      rewrite Hq, Ha, length_delete in Hrun by eauto.
      apply lookup_lt_Some in Hslot. lia.
Qed.

(** No state is stuck: the started tasks can settle and the queued ones can
    be taken in turn, until every task has settled. *)
Lemma settle_started (s : RunState) :
  exists s', run_ (replicate (length (active s)) (Settle 0)) s = Some s' /\
             active s' = [] /\ queue s' = queue s.
Proof.
  remember (length (active s)) as n eqn:Hn. revert s Hn.
  induction n as [|n IH]; intros s Hn; simpl.
  - exists s. split; [done|]. split; [by apply nil_length_inv|done].
  - destruct (active s) as [|[t phase] rest] eqn:Ha; [done|]. simpl.
    destruct (settleTask_rest 0 t phase s) as [Hq Hact].
    destruct (IH (settleTask brandPhrases fsys api 0 t phase s)) as (s' & Hrun & ? & Hq').
    { rewrite Hact, Ha. simpl in *. lia. }
    exists s'. split; [done|]. split; [done|]. by rewrite Hq', Hq.
Qed.

Lemma oneByOne_completes (s : RunState) :
  active s = [] ->
  exists s', run_ (oneByOne (length (queue s))) s = Some s' /\ allSettled s' = true.
Proof.
  remember (length (queue s)) as n eqn:Hn. revert s Hn.
  induction n as [|n IH]; intros s Hn Ha.
  - exists s. split; [done|]. apply allSettled_spec.
    split; [by apply nil_length_inv|done].
  - destruct (queue s) as [|t q] eqn:Hq; [done|].
    change (oneByOne (S n)) with (Dequeue :: Settle 0 :: oneByOne n).
    set (s1 := startTask existingMap total t s).
    assert (active s1 = [begun_ t]) as Ha1.
    { unfold s1. by rewrite startTask_phase, Ha. }
    assert (step_ Dequeue s = Some s1) as Hd.
    { unfold step. rewrite Hq, Ha. done. }
    assert (step_ (Settle 0) s1
            = Some (settleTask brandPhrases fsys api 0 t (phaseOf existingMap t) s1)) as Hs.
    { unfold step. rewrite Ha1. done. }
    rewrite run_cons, Hd. cbn [mbind option_bind].
    rewrite run_cons, Hs. cbn [mbind option_bind].
    destruct (settleTask_rest 0 t (phaseOf existingMap t) s1) as [Hq2 Ha2].
    apply IH.
    + rewrite Hq2. unfold s1. simpl. rewrite Hq. simpl in *. lia.
    + by rewrite Ha2, Ha1.
Qed.

Lemma drain_completes (s : RunState) :
  exists s', run_ (drain s) s = Some s' /\ allSettled s' = true.
Proof.
  unfold drain. rewrite run_app.
  destruct (settle_started s) as (s1 & -> & Ha & Hq). simpl.
  rewrite <- Hq. by apply oneByOne_completes.
Qed.

Lemma initialState_written (inputRows existingRows : list Row) :
  written (initialState inputRows existingRows) = existingRows.
Proof. simpl. apply (foldl_onData [] existingRows). Qed.

(** A complete run writes, after the existing rows, the rows its tasks owe, in
    some order, and records one settlement per task. *)
Lemma run_complete_ledger (inputRows existingRows : list Row)
    (schedule : list Choice) (s : RunState) :
  run_ schedule (initialState inputRows existingRows) = Some s ->
  allSettled s = true ->
  (exists W, written s = existingRows ++ W /\
             W ≡ₚ (begun_ <$> tasksOf inputRows) ≫= owedRow_) /\
  settledTasks s ≡ₚ owedSettle_ <$> (begun_ <$> tasksOf inputRows).
Proof.
  intros Hrun Hdone. apply allSettled_spec in Hdone as [Hq Ha].
  destruct (run_ledger _ _ _ Hrun) as [(W & Hw & Hp) (D & Hd & Hs)].
  rewrite initialState_written in Hw.
  unfold owedRows in Hp. unfold owedSettles in Hs. rewrite Hq, Ha in Hp, Hs.
  simpl in Hp, Hs. rewrite app_nil_r in Hp, Hs. simpl in Hd. subst.
  split; [|done]. by exists W.
Qed.

End RunFacts.

Lemma processRows_Some brandPhrases fsys api schedule inputRows existingRows s :
  processRows brandPhrases fsys api schedule inputRows existingRows = Some s <->
  run brandPhrases fsys api (existingMapOf existingRows) (length inputRows) schedule
      (initialState inputRows existingRows) = Some s /\ allSettled s = true.
Proof.
  unfold processRows. destruct (run _ _ _ _ _ _ _) as [s1|].
  - destruct (allSettled s1) eqn:E; split.
    + by intros [= ->].
    + by intros [[= ->] _].
    + done.
    + intros [[= ->] ?]. congruence.
  - split; [done|]. by intros [? _].
Qed.

(** ** What one task writes and records *)

Section TaskFacts.
Variable brandPhrases : list string.
Variable fsys : FileSystem.
Variable api : API.
Variable existingMap : gmap (option string) Row.

Local Abbreviation resultRow_ := (resultRow brandPhrases fsys api).
Local Abbreviation owedRow_ := (owedRow brandPhrases fsys api).
Local Abbreviation owedSettle_ := (owedSettle brandPhrases fsys api).
Local Abbreviation begun_ := (begun existingMap).

Lemma alreadyDone_true (row : Row) :
  alreadyDone existingMap row = true <->
  exists existing d,
    existingMap !! (row !! "Handle") = Some existing /\
    existing !! "Product Description" = Some d /\ d <> "".
Proof.
  unfold alreadyDone. destruct (existingMap !! (row !! "Handle")) as [existing|].
  - destruct (existing !! "Product Description") as [d|] eqn:Hd.
    + rewrite truthy_Some. split.
      * intros Hne. by exists existing, d.
      * intros (? & ? & [= <-] & Hd' & ?). congruence.
    + simpl. split; [done|]. intros (? & ? & [= <-] & Hd' & _). congruence.
  - split; [done|]. by intros (? & ? & ? & _).
Qed.

Lemma elem_of_owed (tasks : list Task) (w : Row) :
  w ∈ (begun_ <$> tasks) ≫= owedRow_ <->
  exists t, t ∈ tasks /\ alreadyDone existingMap (taskRow t) = false /\ w = resultRow_ t.
Proof.
  rewrite list_elem_of_bind. split.
  - intros ([t phase] & Hw & Hin).
    apply list_elem_of_fmap in Hin as (t' & [= -> ->] & Hin).
    exists t'. unfold owedRow, phaseOf in Hw. simpl in Hw.
    destruct (alreadyDone existingMap (taskRow t')); [by apply elem_of_nil in Hw|].
    apply list_elem_of_singleton in Hw. done.
  - intros (t & Hin & Hdone & ->). exists (begun_ t).
    split; [|by apply list_elem_of_fmap_2].
    unfold owedRow, begun, phaseOf. simpl. rewrite Hdone. constructor.
Qed.

Lemma owed_length (tasks : list Task) :
  Forall (fun t => alreadyDone existingMap (taskRow t) = false) tasks ->
  length ((begun_ <$> tasks) ≫= owedRow_) = length tasks.
Proof.
  induction 1 as [|t tasks Ht _ IH]; [done|].
  rewrite fmap_cons, bind_cons, length_app, IH.
  unfold owedRow, begun, phaseOf. simpl. by rewrite Ht.
Qed.

Lemma resultRow_handle (t : Task) :
  resultRow_ t !! "Handle" = taskRow t !! "Handle".
Proof. unfold resultRow. destruct (settled _); by rewrite lookup_insert_ne. Qed.

(** The description field of a written row: the generated text, or the marker
    made of [ERROR: ] and the message of the error. *)
Lemma resultRow_description (t : Task) :
  exists d, resultRow_ t = <[ "Product Description" := d ]> (taskRow t) /\
    resultRow_ t !! "Product Description" = Some d /\
    match settled (generateDescription brandPhrases fsys api (taskIndex t) (taskRow t)) with
    | Resolved result => d = description result
    | Rejected err => d = "ERROR: " +:+ message err
    end.
Proof.
  unfold resultRow. destruct (settled _); eexists; by rewrite lookup_insert_eq.
Qed.

Lemma retryFrom_resolved {A : Type} (input : nat -> Result A) options left k a :
  settled (retryFrom input options left k) = Resolved a ->
  exists j, input j = Resolved a.
Proof.
  revert k. induction left as [|left IH]; intros k; simpl;
    destruct (input k) as [a'|e] eqn:E; simpl;
    try (intros [= ->]; eauto); destruct (endsRetrying e); simpl; try done.
  apply IH.
Qed.

(** A generated description is the trimmed text of some answer of the service. *)
Lemma generateDescription_resolved index row result :
  settled (generateDescription brandPhrases fsys api index row) = Resolved result ->
  exists k request completion text rest,
    api index k request = Resolved completion /\
    choices completion = Some text :: rest /\
    description result = trim text.
Proof.
  unfold generateDescription, pRetry. cbn [settled]. intros H.
  apply retryFrom_resolved in H as (k & H). unfold callOpenAI in H.
  destruct (api index k _) as [completion|] eqn:E; [|done].
  destruct (choices completion) as [|[text|] rest] eqn:Hc; [done| |done].
  injection H as <-. exists k. eauto 10.
Qed.

Lemma resultRow_truthy (t : Task) :
  (forall k request completion text rest,
     api (taskIndex t) k request = Resolved completion ->
     choices completion = Some text :: rest ->
     trim text <> "") ->
  truthy (resultRow_ t !! "Product Description") = true.
Proof.
  intros Hnonempty.
  destruct (resultRow_description t) as (d & _ & -> & Hd).
  apply truthy_Some.
  destruct (settled _) as [result|err] eqn:E; subst d; [|done].
  apply generateDescription_resolved in E
    as (k & request & completion & text & rest & Hc & Hchoice & ->).
  by eapply Hnonempty.
Qed.

Lemma owedSettle_index (tasks : list Task) :
  (owedSettle_ <$> (begun_ <$> tasks)).*1 = taskIndex <$> tasks.
Proof. rewrite <- !list_fmap_compose. by apply list_fmap_ext. Qed.

Lemma owedSettle_zero (t : Task) :
  (owedSettle_ (begun_ t)).2 = 0 <-> alreadyDone existingMap (taskRow t) = true.
Proof.
  unfold owedSettle, begun, phaseOf. cbn [fst snd].
  destruct (alreadyDone existingMap (taskRow t)); [done|].
  pose proof (generateDescription_invocations_pos brandPhrases fsys api
                (taskIndex t) (taskRow t)).
  split; [lia|done].
Qed.

End TaskFacts.

(** ** The scheduler's guarantees *)

(** C9. With the limiter of [pLimit(2)], in every state a run can reach, under
    every schedule and for every number of input rows, at most 2 generation
    calls are in flight; the run can always be carried to its end; and at the
    end every input row has been handled by exactly one task: the indices of
    the settled tasks are 0 .. N-1, each once. *)
Theorem concurrency_ceiling (brandPhrases : list string) (fsys : FileSystem)
    (api : API) (existingMap : gmap (option string) Row) (total : nat)
    (inputRows existingRows : list Row) (schedule : list Choice) (s : RunState) :
  run brandPhrases fsys api existingMap total schedule
      (initialState inputRows existingRows) = Some s ->
  concurrency = 2%nat /\
  inFlight s <= 2 /\
  (exists rest s',
     run brandPhrases fsys api existingMap total rest s = Some s' /\
     allSettled s' = true) /\
  (allSettled s = true -> (settledTasks s).*1 ≡ₚ seq 0 (length inputRows)).
Proof.
  intros Hrun. split; [done|]. split; [|split].
  - pose proof (run_active_bound _ _ _ _ _ _ _ _ Hrun) as Hb.
    simpl in Hb. specialize (Hb ltac:(unfold concurrency; lia)).
    unfold inFlight. etrans; [apply length_filter|exact Hb].
  - exists (drain s). apply drain_completes.
  - intros Hdone.
    destruct (run_complete_ledger _ _ _ _ _ _ _ _ _ Hrun Hdone) as [_ Hs].
    rewrite Hs, owedSettle_index. by rewrite tasksOf_indices.
Qed.

(** Three rows, two tasks started: both slots are taken and no more. *)
Lemma concurrency_ceiling_witness :
  run Scenario.phrases Scenario.disk (Scenario.serviceSaying "Sturdy.") ∅ 3
      [Dequeue; Dequeue]
      (initialState [Scenario.mug; Scenario.lamp; Scenario.mug] [])
  = Some Scenario.twoStarted /\
  inFlight Scenario.twoStarted = 2%nat /\
  inFlight Scenario.twoStarted <= 2.
Proof.
  assert (run Scenario.phrases Scenario.disk (Scenario.serviceSaying "Sturdy.") ∅ 3
            [Dequeue; Dequeue]
            (initialState [Scenario.mug; Scenario.lamp; Scenario.mug] [])
          = Some Scenario.twoStarted) as Hrun by evaluate.
  split; [exact Hrun|]. split; [vm_compute; reflexivity|].
  exact (proj1 (proj2 (concurrency_ceiling _ _ _ _ _ _ _ _ _ Hrun))).
Defined.

(** C3. In a complete run each input row has exactly one settled task, and
    that task made no call to the generation client if and only if the row's
    identifier is in the resume index and the indexed record has a non-empty
    description.  When the identifier is present but the description is empty
    or missing, the task called the client at least once and wrote a row for
    the record. *)
Theorem skip_policy (brandPhrases : list string) (fsys : FileSystem) (api : API)
    (schedule : list Choice) (inputRows existingRows : list Row) (s : RunState) :
  processRows brandPhrases fsys api schedule inputRows existingRows = Some s ->
  forall i row, inputRows !! i = Some row ->
  exists n,
    (i, n) ∈ settledTasks s /\
    (forall m, (i, m) ∈ settledTasks s -> m = n) /\
    (n = 0%nat <->
     exists existing d,
       existingMapOf existingRows !! (row !! "Handle") = Some existing /\
       existing !! "Product Description" = Some d /\ d <> "") /\
    (forall existing,
       existingMapOf existingRows !! (row !! "Handle") = Some existing ->
       truthy (existing !! "Product Description") = false ->
       1 <= n /\
       exists d, <[ "Product Description" := d ]> row
                 ∈ drop (length existingRows) (written s)).
Proof.
  intros Hp i row Hi. apply processRows_Some in Hp as [Hrun Hdone].
  destruct (run_complete_ledger _ _ _ _ _ _ _ _ _ Hrun Hdone)
    as [(W & Hw & HW) Hs].
  set (em := existingMapOf existingRows) in *.
  set (t := {| taskIndex := i; taskRow := row |}).
  assert (t ∈ tasksOf inputRows) as Ht by by apply elem_of_tasksOf.
  exists (owedSettle brandPhrases fsys api (begun em t)).2.
  split; [|split; [|split]].
  - rewrite Hs. apply list_elem_of_fmap.
    exists (begun em t). split; [done|]. by apply list_elem_of_fmap_2.
  - intros m Hm. rewrite Hs in Hm.
    apply list_elem_of_fmap in Hm as (started & Heq & Hin).
    apply list_elem_of_fmap in Hin as (t' & -> & Hin).
    apply elem_of_tasksOf in Hin.
    injection Heq as Hidx ->. simpl in Hidx. subst i.
    rewrite Hin in Hi. injection Hi as <-. by destruct t'.
  - rewrite owedSettle_zero. apply alreadyDone_true.
  - intros existing Hex Hempty.
    assert (alreadyDone em row = false) as Hnot.
    { unfold alreadyDone. by rewrite Hex. }
    split.
    + assert ((owedSettle brandPhrases fsys api (begun em t)).2 <> 0%nat) as Hz.
      { intros H0. apply owedSettle_zero in H0. simpl in H0. congruence. }
      lia.
    + destruct (resultRow_description brandPhrases fsys api t) as (d & Hd & _).
      exists d. rewrite Hw, drop_app_length, HW. simpl in Hd. rewrite <- Hd.
      apply elem_of_owed. by exists t.
Qed.

(** A prior-output record with an empty description: the row is generated
    again. *)
Lemma skip_policy_witness :
  processRows Scenario.phrases Scenario.disk (Scenario.serviceSaying "Sturdy.")
    (oneByOne 1) [Scenario.mug] [Scenario.mugPending] = Some Scenario.pendingRun /\
  exists n, (0%nat, n) ∈ settledTasks Scenario.pendingRun /\ 1 <= n.
Proof.
  assert (processRows Scenario.phrases Scenario.disk (Scenario.serviceSaying "Sturdy.")
            (oneByOne 1) [Scenario.mug] [Scenario.mugPending]
          = Some Scenario.pendingRun) as Hrun by evaluate.
  split; [exact Hrun|].
  destruct (skip_policy _ _ _ _ _ _ _ Hrun 0%nat Scenario.mug eq_refl)
    as (n & Hin & _ & _ & Hempty).
  assert (existingMapOf [Scenario.mugPending] !! (Scenario.mug !! "Handle")
          = Some Scenario.mugPending) as Hex by evaluate.
  assert (truthy (Scenario.mugPending !! "Product Description") = false) as Hemp
    by evaluate.
  exists n. split; [exact Hin|]. exact (proj1 (Hempty _ Hex Hemp)).
Defined.

(** ** Rows written by a complete run *)

(** Under the one-by-one schedule [processRows] returns a final state, whatever
    the rows and the service. *)
Lemma processRows_completes brandPhrases fsys api inputRows existingRows :
  exists s,
    processRows brandPhrases fsys api (oneByOne (length inputRows))
      inputRows existingRows = Some s.
Proof.
  destruct (oneByOne_completes brandPhrases fsys api (existingMapOf existingRows)
              (length inputRows) (initialState inputRows existingRows) eq_refl)
    as (s & Hrun & Hdone).
  exists s. apply processRows_Some. split; [|done].
  rewrite <- Hrun. simpl. unfold tasksOf. by rewrite length_imap.
Qed.

(** C5. When no input record's identifier occurs in the prior output, a
    complete run over N input records and M prior-output records leaves
    exactly N + M rows in the output. *)
Theorem row_completeness (brandPhrases : list string) (fsys : FileSystem) (api : API)
    (schedule : list Choice) (inputRows existingRows : list Row) (s : RunState) :
  processRows brandPhrases fsys api schedule inputRows existingRows = Some s ->
  (forall row, row ∈ inputRows ->
     row !! "Handle" ∉ (fun existing : Row => existing !! "Handle") <$> existingRows) ->
  length (written s) = length inputRows + length existingRows.
Proof.
  intros Hp Hfresh. apply processRows_Some in Hp as [Hrun Hdone].
  destruct (run_complete_ledger _ _ _ _ _ _ _ _ _ Hrun Hdone)
    as [(W & Hw & HW) _].
  rewrite Hw, length_app, HW, owed_length.
  - unfold tasksOf. rewrite length_imap. lia.
  - apply Forall_forall. intros t Ht. apply elem_of_tasksOf in Ht.
    unfold alreadyDone.
    assert (existingMapOf existingRows !! (taskRow t !! "Handle") = None) as ->; [|done].
    apply existingMapOf_lookup_None, Forall_forall. intros existing Hin Heq.
    apply (Hfresh (taskRow t)).
    + by eapply list_elem_of_lookup_2.
    + rewrite <- Heq. by apply (list_elem_of_fmap_2 (fun r : Row => r !! "Handle")).
Qed.

(** Two input rows, one unrelated prior-output row, a service that is down:
    three rows in the output. *)
Lemma row_completeness_witness :
  processRows Scenario.phrases Scenario.disk Scenario.serviceDown
    [Dequeue; Dequeue; Settle 1; Settle 0]
    [Scenario.mug; Scenario.lamp] [Scenario.vase] = Some Scenario.failedRun /\
  length (written Scenario.failedRun) = (2 + 1)%nat.
Proof.
  assert (processRows Scenario.phrases Scenario.disk Scenario.serviceDown
            [Dequeue; Dequeue; Settle 1; Settle 0]
            [Scenario.mug; Scenario.lamp] [Scenario.vase]
          = Some Scenario.failedRun) as Hrun by evaluate.
  split; [exact Hrun|].
  apply (row_completeness _ _ _ _ _ _ _ Hrun).
  apply Forall_forall. decide_by_evaluation.
Defined.

(** ** The rows of the output file *)

Lemma project_lookup (columns : gset string) (row : Row) (k : string) :
  project columns row !! k
  = if decide (k ∈ columns) then Some (default "" (row !! k)) else None.
Proof.
  unfold project. rewrite lookup_union, map_lookup_filter, lookup_gset_to_gmap.
  destruct (row !! k) as [v|]; simpl; case_decide.
  - by rewrite !option_guard_True.
  - by rewrite !option_guard_False.
  - by rewrite option_guard_True.
  - by rewrite option_guard_False.
Qed.

Lemma project_dom (columns : gset string) (row : Row) :
  dom (project columns row) = columns.
Proof.
  apply set_eq. intros k. rewrite elem_of_dom, project_lookup.
  case_decide; split; first [done | by eexists | by intros [? ?]].
Qed.

Lemma project_project (columns : gset string) (row : Row) :
  project columns (project columns row) = project columns row.
Proof.
  apply map_eq. intros k. rewrite !project_lookup. by case_decide.
Qed.

(** A row that has exactly the columns of the file is stored as it is. *)
Lemma project_same_columns (row : Row) : project (dom row) row = row.
Proof.
  apply map_eq. intros k. rewrite project_lookup. case_decide as Hk.
  - apply elem_of_dom in Hk as [v ->]. done.
  - by apply not_elem_of_dom in Hk.
Qed.

Lemma columnsOf_stored (rows : list Row) : columnsOf (stored rows) = columnsOf rows.
Proof. destruct rows as [|first rows]; [done|]. apply project_dom. Qed.

(** Loading the file and writing its rows again gives the same file. *)
Lemma stored_stored (rows : list Row) : stored (stored rows) = stored rows.
Proof.
  unfold stored at 1. rewrite columnsOf_stored. unfold stored.
  rewrite <- list_fmap_compose. apply list_fmap_ext. intros _ row _.
  apply project_project.
Qed.

Lemma columnsOf_head (rows : list Row) (k : string) :
  k ∈ columnsOf rows <-> exists first, head rows = Some first /\ is_Some (first !! k).
Proof.
  destruct rows as [|first rows]; simpl.
  - split; [by intros ?%elem_of_empty|by intros (? & ? & _)].
  - rewrite elem_of_dom. split; [by exists first|by intros (? & [= <-] & ?)].
Qed.

(** A row keeps its identifier in the file when the file has the column, and
    the truth value of its description when the file has that column. *)
Lemma project_handle (columns : gset string) (row : Row) :
  "Handle" ∈ columns -> is_Some (row !! "Handle") ->
  project columns row !! "Handle" = row !! "Handle".
Proof. intros Hc [h Hh]. rewrite project_lookup, Hh. by case_decide. Qed.

Lemma project_truthy (columns : gset string) (row : Row) :
  "Product Description" ∈ columns ->
  truthy (project columns row !! "Product Description")
  = truthy (row !! "Product Description").
Proof.
  intros Hc. rewrite project_lookup. case_decide; [|done].
  by destruct (row !! "Product Description").
Qed.

Lemma existingMapOf_project (columns : gset string) (rows : list Row) :
  "Handle" ∈ columns ->
  (forall row : Row, row ∈ rows -> is_Some (row !! "Handle")) ->
  existingMapOf (project columns <$> rows) = project columns <$> existingMapOf rows.
Proof.
  intros Hc. induction rows as [|row rows IH] using rev_ind; intros Hh.
  - simpl. by rewrite existingMapOf_nil, fmap_empty.
  - rewrite fmap_app. simpl. rewrite !existingMapOf_snoc, fmap_insert, IH.
    + rewrite project_handle; [done|done|]. apply Hh, elem_of_app. right. constructor.
    + intros r Hr. apply Hh, elem_of_app. by left.
Qed.

(** The skip test against the rows of the file is the skip test against the
    rows written, when every row written has an identifier and the first of
    them has the description column. *)
Lemma alreadyDone_stored (rows : list Row) (row : Row) :
  (forall r : Row, r ∈ rows -> is_Some (r !! "Handle")) ->
  (forall first : Row, head rows = Some first ->
     is_Some (first !! "Product Description")) ->
  alreadyDone (existingMapOf (stored rows)) row = alreadyDone (existingMapOf rows) row.
Proof.
  intros Hh Hd. destruct rows as [|first rest] eqn:Hrows; [done|]. rewrite <- Hrows in *.
  assert ("Handle" ∈ columnsOf rows) as Hc1.
  { apply columnsOf_head. exists first. rewrite Hrows. split; [done|].
    apply Hh. rewrite Hrows. constructor. }
  assert ("Product Description" ∈ columnsOf rows) as Hc2.
  { apply columnsOf_head. exists first. rewrite Hrows. split; [done|].
    apply Hd. by rewrite Hrows. }
  unfold stored, alreadyDone. rewrite existingMapOf_project, lookup_fmap by done.
  destruct (existingMapOf rows !! (row !! "Handle")) as [existing|]; simpl; [|done].
  by apply project_truthy.
Qed.




(** ** Resuming from an earlier output *)

Lemma sum_list_zero (l : list nat) : Forall (fun n => n = 0%nat) l -> sum_list l = 0%nat.
Proof. induction 1 as [|n l -> _ IH]; [done|]. simpl. exact IH. Qed.

Section Resume.
Variable brandPhrases : list string.
Variable fsys : FileSystem.
Variable api : API.
Variable existingMap : gmap (option string) Row.

(** Tasks whose rows are all done owe no row and no call. *)
Lemma all_done_owes_nothing (tasks : list Task) :
  Forall (fun t => alreadyDone existingMap (taskRow t) = true) tasks ->
  (begun existingMap <$> tasks) ≫= owedRow brandPhrases fsys api = [] /\
  Forall (fun n => n = 0%nat)
    (owedSettle brandPhrases fsys api <$> (begun existingMap <$> tasks)).*2.
Proof.
  induction 1 as [|t tasks Ht _ [IH1 IH2]]; [by split|].
  rewrite !fmap_cons, bind_cons, IH1. split.
  - unfold owedRow, begun, phaseOf. simpl. by rewrite Ht.
  - constructor; [|done]. by apply owedSettle_zero.
Qed.

End Resume.

(** After a run, every input row is done with respect to the rows the run
    handed to the writer, provided each row the run wrote itself has a
    non-empty description. *)
Lemma done_after_run (brandPhrases : list string) (fsys : FileSystem) (api : API)
    (schedule : list Choice) (inputRows existingRows : list Row) (s : RunState) :
  processRows brandPhrases fsys api schedule inputRows existingRows = Some s ->
  (forall w : Row, w ∈ drop (length existingRows) (written s) ->
     truthy (w !! "Product Description") = true) ->
  Forall (fun t => alreadyDone (existingMapOf (written s)) (taskRow t) = true)
    (tasksOf inputRows).
Proof.
  intros Hp Hfull. apply processRows_Some in Hp as [Hrun Hdone].
  destruct (run_complete_ledger _ _ _ _ _ _ _ _ _ Hrun Hdone)
    as [(W & Hw & HW) _].
  rewrite Hw, drop_app_length in Hfull. rewrite Hw.
  apply Forall_forall. intros t Ht.
  unfold alreadyDone at 1. rewrite existingMapOf_app.
  destruct (existingMapOf W !! (taskRow t !! "Handle")) as [w|] eqn:HWl.
  - apply existingMapOf_lookup_Some in HWl as [Hin _]. by apply Hfull.
  - destruct (alreadyDone (existingMapOf existingRows) (taskRow t)) eqn:Hold; [done|].
    exfalso. apply existingMapOf_lookup_None in HWl.
    rewrite Forall_forall in HWl.
    apply (HWl (resultRow brandPhrases fsys api t)).
    + rewrite HW. apply elem_of_owed. by exists t.
    + apply resultRow_handle.
Qed.

(** Every row a run hands to the writer has an identifier when every input row
    and every prior-output row has one. *)
Lemma written_handles (brandPhrases : list string) (fsys : FileSystem) (api : API)
    (schedule : list Choice) (inputRows existingRows : list Row) (s : RunState) :
  processRows brandPhrases fsys api schedule inputRows existingRows = Some s ->
  (forall row : Row, row ∈ inputRows ++ existingRows -> is_Some (row !! "Handle")) ->
  forall w : Row, w ∈ written s -> is_Some (w !! "Handle").
Proof.
  intros Hp Hh w Hin. apply processRows_Some in Hp as [Hrun Hdone].
  destruct (run_complete_ledger _ _ _ _ _ _ _ _ _ Hrun Hdone)
    as [(W & Hw & HW) _].
  rewrite Hw in Hin. apply elem_of_app in Hin as [Hin|Hin].
  - apply Hh, elem_of_app. by right.
  - rewrite HW in Hin. apply elem_of_owed in Hin as (t & Ht & _ & ->).
    rewrite resultRow_handle. apply Hh, elem_of_app. left.
    apply elem_of_tasksOf in Ht. by eapply list_elem_of_lookup_2.
Qed.

(** The same with respect to the file the run leaves, when the rows have
    identifiers and the first row written has the description column. *)
Lemma done_after_stored (brandPhrases : list string) (fsys : FileSystem) (api : API)
    (schedule : list Choice) (inputRows existingRows : list Row) (s : RunState) :
  processRows brandPhrases fsys api schedule inputRows existingRows = Some s ->
  (forall w : Row, w ∈ drop (length existingRows) (written s) ->
     truthy (w !! "Product Description") = true) ->
  (forall row : Row, row ∈ inputRows ++ existingRows -> is_Some (row !! "Handle")) ->
  (forall first : Row, head (written s) = Some first ->
     is_Some (first !! "Product Description")) ->
  Forall (fun t => alreadyDone (existingMapOf (stored (written s))) (taskRow t) = true)
    (tasksOf inputRows).
Proof.
  intros Hp Hfull Hh Hhead.
  pose proof (done_after_run _ _ _ _ _ _ _ Hp Hfull) as Hall.
  pose proof (written_handles _ _ _ _ _ _ _ Hp Hh) as Hids.
  eapply Forall_impl; [exact Hall|]. intros t Ht. simpl.
  by rewrite alreadyDone_stored.
Qed.

(** Every row a run writes has a non-empty description when the service never
    answers with blank text: the error marker is never empty. *)
Lemma written_descriptions_nonempty (brandPhrases : list string) (fsys : FileSystem)
    (api : API) (schedule : list Choice) (inputRows existingRows : list Row)
    (s : RunState) :
  processRows brandPhrases fsys api schedule inputRows existingRows = Some s ->
  (forall i k request completion text rest,
     api i k request = Resolved completion ->
     choices completion = Some text :: rest -> trim text <> "") ->
  forall w : Row, w ∈ drop (length existingRows) (written s) ->
    truthy (w !! "Product Description") = true.
Proof.
  intros Hp Hservice w Hin. apply processRows_Some in Hp as [Hrun Hdone].
  destruct (run_complete_ledger _ _ _ _ _ _ _ _ _ Hrun Hdone)
    as [(W & Hw & HW) _].
  rewrite Hw, drop_app_length, HW in Hin.
  apply elem_of_owed in Hin as (t & _ & _ & ->).
  apply resultRow_truthy. intros k. apply Hservice.
Qed.

(** A run in which every input row is already done calls nothing and writes
    the existing rows only. *)
Lemma idle_when_all_done (brandPhrases : list string) (fsys : FileSystem) (api : API)
    (schedule : list Choice) (inputRows existingRows : list Row) (s : RunState) :
  processRows brandPhrases fsys api schedule inputRows existingRows = Some s ->
  Forall (fun t => alreadyDone (existingMapOf existingRows) (taskRow t) = true)
    (tasksOf inputRows) ->
  apiCalls s = 0%nat /\ written s = existingRows.
Proof.
  intros Hp Hall. apply processRows_Some in Hp as [Hrun Hdone].
  destruct (run_complete_ledger _ _ _ _ _ _ _ _ _ Hrun Hdone)
    as [(W & Hw & HW) Hs].
  destruct (all_done_owes_nothing brandPhrases fsys api _ _ Hall) as [Hrows Hcalls].
  rewrite Hrows in HW. apply Permutation_nil_r in HW. subst W.
  rewrite app_nil_r in Hw. split; [|done].
  unfold apiCalls. apply sum_list_zero. by rewrite Hs.
Qed.

(** A run resumed from the file of a first run, every input row being done
    with respect to that file: no call, and the file is left as it was. *)
Lemma idle_from_stored (brandPhrases : list string) (fsys : FileSystem) (api : API)
    (schedule : list Choice) (inputRows rows : list Row) (s : RunState) :
  processRows brandPhrases fsys api schedule inputRows (stored rows) = Some s ->
  Forall (fun t => alreadyDone (existingMapOf (stored rows)) (taskRow t) = true)
    (tasksOf inputRows) ->
  apiCalls s = 0%nat /\ written s = stored rows /\ stored (written s) = stored rows.
Proof.
  intros Hp Hall. destruct (idle_when_all_done _ _ _ _ _ _ _ Hp Hall) as [Hc Hw].
  split; [done|]. split; [done|]. rewrite Hw. apply stored_stored.
Qed.

(** C2, the claim as stated, fails, in three ways.  When the service answers
    with blank text, the first run writes an empty description, and the second
    run, resumed from the file of the first, calls the service again and
    writes a second row.  When the prior output of the first run begins with a
    row without description column, the file has no such column and the
    description the first run generated is not in it: the second run
    generates it again.  And when that row has no identifier column, the file
    has none and the second run finds no identifier in it. *)
Lemma resume_after_blank_answer_calls_again :
  (processRows Scenario.phrases Scenario.disk (Scenario.serviceSaying "  ")
     (oneByOne 1) [Scenario.mug] [] = Some Scenario.blankRun /\
   written Scenario.blankRun = [<[ "Product Description" := "" ]> Scenario.mug] /\
   stored (written Scenario.blankRun) = written Scenario.blankRun /\
   processRows Scenario.phrases Scenario.disk (Scenario.serviceSaying "  ")
     (oneByOne 1) [Scenario.mug] (stored (written Scenario.blankRun))
   = Some Scenario.blankResumed /\
   apiCalls Scenario.blankResumed = 1%nat /\
   length (written Scenario.blankResumed) = 2%nat) /\
  (processRows Scenario.phrases Scenario.disk (Scenario.serviceSaying "Sturdy.")
     (oneByOne 1) [Scenario.mug] [Scenario.mug] = Some Cases.headerlessRun /\
   written Cases.headerlessRun
   = [Scenario.mug; <[ "Product Description" := "Sturdy." ]> Scenario.mug] /\
   stored (written Cases.headerlessRun) = [Scenario.mug; Scenario.mug] /\
   processRows Scenario.phrases Scenario.disk (Scenario.serviceSaying "Sturdy.")
     (oneByOne 1) [Scenario.mug] (stored (written Cases.headerlessRun))
   = Some Cases.headerlessResumed /\
   apiCalls Cases.headerlessResumed = 1%nat /\
   length (written Cases.headerlessResumed) = 3%nat) /\
  (processRows Scenario.phrases Scenario.disk (Scenario.serviceSaying "Sturdy.")
     (oneByOne 1) [Scenario.mug] [Cases.oldStock] = Some Cases.anonymousRun /\
   stored (written Cases.anonymousRun)
   = [ Cases.oldStock;
       {[ "Title" := "Stoneware mug"; "Product Description" := "Sturdy." ]} ] /\
   processRows Scenario.phrases Scenario.disk (Scenario.serviceSaying "Sturdy.")
     (oneByOne 1) [Scenario.mug] (stored (written Cases.anonymousRun))
   = Some Cases.anonymousResumed /\
   apiCalls Cases.anonymousResumed = 1%nat /\
   length (written Cases.anonymousResumed) = 3%nat).
Proof. repeat split; evaluate. Qed.

(** C2, amended. Let a first run complete over rows that all have an
    identifier; let every row it wrote itself carry a non-empty description
    (an error marker is one; a generated text is one unless the service
    answered with blank text); and let the first row it handed to the writer
    have the description column, so that the file has it.  Then a second run
    over the same input, resumed from the file of the first run, under any
    schedule and against any service, makes no call to the generation client
    and leaves the file with exactly the rows it had, in the same order. *)
Theorem resume_idempotent (brandPhrases1 brandPhrases2 : list string)
    (fsys1 fsys2 : FileSystem) (api1 api2 : API) (schedule1 schedule2 : list Choice)
    (inputRows existingRows : list Row) (s1 s2 : RunState) :
  processRows brandPhrases1 fsys1 api1 schedule1 inputRows existingRows = Some s1 ->
  (forall w : Row, w ∈ drop (length existingRows) (written s1) ->
     truthy (w !! "Product Description") = true) ->
  (forall row : Row, row ∈ inputRows ++ existingRows -> is_Some (row !! "Handle")) ->
  (forall first : Row, head (written s1) = Some first ->
     is_Some (first !! "Product Description")) ->
  processRows brandPhrases2 fsys2 api2 schedule2 inputRows (stored (written s1))
  = Some s2 ->
  apiCalls s2 = 0%nat /\
  written s2 = stored (written s1) /\
  stored (written s2) = stored (written s1) /\
  stored (written s2) ≡ₚ stored (written s1).
Proof.
  intros H1 Hfull Hh Hhead H2.
  pose proof (done_after_stored _ _ _ _ _ _ _ H1 Hfull Hh Hhead) as Hall.
  destruct (idle_from_stored _ _ _ _ _ _ _ H2 Hall) as (Hcalls & Hw & Hfile).
  split; [done|]. split; [done|]. split; [done|]. by rewrite Hfile.
Qed.

(** A first run that generates two descriptions after a prior output with a
    description column, then a run resumed from its file against a service
    that is down: no call, the same file. *)
Lemma resume_idempotent_witness :
  processRows Scenario.phrases Scenario.disk (Scenario.serviceSaying "Sturdy.")
    [Dequeue; Dequeue; Settle 1; Settle 0]
    [Scenario.mug; Scenario.lamp] [Scenario.vase] = Some Scenario.goodRun /\
  stored (written Scenario.goodRun)
  = [ Scenario.vase;
      {[ "Handle" := "lamp"; "Product Description" := "Sturdy." ]};
      {[ "Handle" := "mug"; "Product Description" := "Sturdy." ]} ] /\
  processRows Scenario.phrases Scenario.disk Scenario.serviceDown
    (oneByOne 2) [Scenario.mug; Scenario.lamp] (stored (written Scenario.goodRun))
  = Some Scenario.goodResumed /\
  apiCalls Scenario.goodResumed = 0%nat /\
  stored (written Scenario.goodResumed) = stored (written Scenario.goodRun).
Proof.
  assert (processRows Scenario.phrases Scenario.disk (Scenario.serviceSaying "Sturdy.")
            [Dequeue; Dequeue; Settle 1; Settle 0]
            [Scenario.mug; Scenario.lamp] [Scenario.vase]
          = Some Scenario.goodRun) as H1 by evaluate.
  assert (processRows Scenario.phrases Scenario.disk Scenario.serviceDown
            (oneByOne 2) [Scenario.mug; Scenario.lamp]
            (stored (written Scenario.goodRun))
          = Some Scenario.goodResumed) as H2 by evaluate.
  split; [exact H1|]. split; [evaluate|]. split; [exact H2|].
  assert (forall w : Row, w ∈ drop (length [Scenario.vase]) (written Scenario.goodRun) ->
            truthy (w !! "Product Description") = true) as Hfull.
  { apply Forall_forall. decide_by_evaluation. }
  assert (forall row : Row, row ∈ [Scenario.mug; Scenario.lamp] ++ [Scenario.vase] ->
            is_Some (row !! "Handle")) as Hh.
  { apply Forall_forall. decide_by_evaluation. }
  assert (head (written Scenario.goodRun) = Some Scenario.vase) as Hfirst by evaluate.
  assert (forall first : Row, head (written Scenario.goodRun) = Some first ->
            is_Some (first !! "Product Description")) as Hhead.
  { intros first Hf. rewrite Hfirst in Hf. injection Hf as <-.
    exists "A clear glass vase.". evaluate. }
  destruct (resume_idempotent _ _ _ _ _ _ _ _ _ _ _ _ H1 Hfull Hh Hhead H2)
    as (Hc & _ & Hw & _).
  split; [exact Hc|exact Hw].
Defined.

(** ** [processCSV] as a whole *)

(** A failed load is fatal: the run ends before anything is written, whether
    the load is rejected or the read behind it fails. *)
Lemma processCSV_load_failure brandPhrases fsys api schedule inputFile outputFile model e :
  loadCsv fsys inputFile = Some (Rejected e) \/
  uncaughtWhileLoading fsys inputFile = Some e \/
  ((exists inputRows, loadCsv fsys inputFile = Some (Resolved inputRows)) /\
   (loadCsv fsys outputFile = Some (Rejected e) \/
    uncaughtWhileLoading fsys outputFile = Some e)) ->
  processCSV brandPhrases fsys api schedule inputFile outputFile model
  = Some (Rejected e).
Proof.
  assert (forall file, uncaughtWhileLoading fsys file = Some e ->
            loadCsv fsys file = None) as Hcrash.
  { intros file. unfold uncaughtWhileLoading, loadCsv.
    destruct (existsSync fsys file); simpl; [|done].
    by destruct (streamEnd (csvStream fsys file)). }
  unfold processCSV. intros [->|[H|[[inputRows ->] [->|H]]]]; [done| |done|].
  - by rewrite (Hcrash _ H), H.
  - by rewrite (Hcrash _ H), H.
Qed.

(** Once both files are loaded, [processCSV] is [processRows] on their rows
    followed by the estimate. *)
Lemma processCSV_loaded brandPhrases fsys api schedule inputFile outputFile model
    inputRows existingRows summary :
  loadCsv fsys inputFile = Some (Resolved inputRows) ->
  loadCsv fsys outputFile = Some (Resolved existingRows) ->
  processCSV brandPhrases fsys api schedule inputFile outputFile model
  = Some (Resolved summary) ->
  processRows brandPhrases fsys api schedule inputRows existingRows
  = Some (final summary) /\
  estimate summary
  = estimateCost (totalPromptTokens (final summary))
      (totalCompletionTokens (final summary)) model.
Proof.
  unfold processCSV. intros -> ->.
  destruct (processRows _ _ _ _ _ _) as [s|]; simpl; [|done].
  by intros [= <-].
Qed.

(** A first run is a resumed run whose prior output is empty. *)
Lemma processCSV_first_run brandPhrases fsys api schedule inputFile outputFile model
    inputRows summary :
  loadCsv fsys inputFile = Some (Resolved inputRows) ->
  existsSync fsys outputFile = false ->
  processCSV brandPhrases fsys api schedule inputFile outputFile model
  = Some (Resolved summary) ->
  processRows brandPhrases fsys api schedule inputRows [] = Some (final summary).
Proof.
  intros Hin Hout Hrun.
  assert (loadCsv fsys outputFile = Some (Resolved [])) as Hprior.
  { unfold loadCsv. by rewrite Hout. }
  by destruct (processCSV_loaded _ _ _ _ _ _ _ _ _ _ Hin Hprior Hrun).
Qed.

(** Resuming from the file a first run left where there was no output before,
    for [processCSV] and the two states of the disk, when the rows have
    identifiers and the service of the first run never answers with blank
    text. *)
Lemma processCSV_resume (brandPhrases1 brandPhrases2 : list string)
    (fsys1 fsys2 : FileSystem) (api1 api2 : API) (schedule1 schedule2 : list Choice)
    (inputFile outputFile model1 model2 : string) (inputRows : list Row)
    (first second : Summary) :
  loadCsv fsys1 inputFile = Some (Resolved inputRows) ->
  existsSync fsys1 outputFile = false ->
  processCSV brandPhrases1 fsys1 api1 schedule1 inputFile outputFile model1
  = Some (Resolved first) ->
  (forall i k request completion text rest,
     api1 i k request = Resolved completion ->
     choices completion = Some text :: rest -> trim text <> "") ->
  (forall row : Row, row ∈ inputRows -> is_Some (row !! "Handle")) ->
  loadCsv fsys2 inputFile = Some (Resolved inputRows) ->
  loadCsv fsys2 outputFile = Some (Resolved (stored (written (final first)))) ->
  processCSV brandPhrases2 fsys2 api2 schedule2 inputFile outputFile model2
  = Some (Resolved second) ->
  apiCalls (final second) = 0%nat /\
  stored (written (final second)) = stored (written (final first)).
Proof.
  intros Hin1 Hout1 Hrun1 Hservice Hh Hin2 Hout2 Hrun2.
  pose proof (processCSV_first_run _ _ _ _ _ _ _ _ _ Hin1 Hout1 Hrun1) as H1.
  destruct (processCSV_loaded _ _ _ _ _ _ _ _ _ _ Hin2 Hout2 Hrun2) as [H2 _].
  pose proof (written_descriptions_nonempty _ _ _ _ _ _ _ H1 Hservice) as Hfull.
  assert (forall row : Row, row ∈ inputRows ++ [] -> is_Some (row !! "Handle")) as Hh'.
  { intros row. rewrite app_nil_r. apply Hh. }
  assert (forall w : Row, head (written (final first)) = Some w ->
            is_Some (w !! "Product Description")) as Hhead.
  { intros w Hw. apply head_Some_elem_of in Hw.
    assert (w ∈ drop (length (@nil Row)) (written (final first))) as Hin by done.
    apply Hfull in Hin. destruct (w !! "Product Description"); [by eexists|done]. }
  pose proof (done_after_stored _ _ _ _ _ _ _ H1 Hfull Hh' Hhead) as Hall.
  destruct (idle_from_stored _ _ _ _ _ _ _ H2 Hall) as (Hc & _ & Hfile). done.
Qed.

(** * Further properties of the code *)

(** ** The retry loop of a generation call *)

Lemma retryFrom_ext {A : Type} (input1 input2 : nat -> Result A) options left k :
  (forall j, input1 j = input2 j) ->
  retryFrom input1 options left k = retryFrom input2 options left k.
Proof.
  intros Hext. revert k. induction left as [|left IH]; intros k; simpl;
    rewrite Hext; [done|]. by rewrite IH.
Qed.

Lemma retryFrom_waits {A : Type} (input : nat -> Result A) options left k :
  waits (retryFrom input options left k)
  = backoff options <$> seq k (invocations (retryFrom input options left k) - 1).
Proof.
  revert k. induction left as [|left IH]; intros k; simpl;
    destruct (input k) as [a|e]; simpl; try done;
    destruct (endsRetrying e); simpl; try done.
  pose proof (retryFrom_invocations_pos input options left (S k)) as Hpos.
  rewrite IH.
  destruct (invocations (retryFrom input options left (S k))) as [|n]; [lia|].
  simpl. by rewrite Nat.sub_0_r.
Qed.

Lemma retryFrom_resolves_at {A : Type} (input : nat -> Result A) options a m :
  forall left k,
    m <= left ->
    (forall j, k <= j < k + m ->
       exists e, input j = Rejected e /\ endsRetrying e = false) ->
    input (k + m)%nat = Resolved a ->
    settled (retryFrom input options left k) = Resolved a /\
    invocations (retryFrom input options left k) = S m.
Proof.
  induction m as [|m IH]; intros left k Hle Hfail Hok.
  - rewrite Nat.add_0_r in Hok. by rewrite (retryFrom_first_try _ _ _ _ a).
  - destruct left as [|left]; [lia|].
    destruct (Hfail k ltac:(lia)) as (e & He & Hretried). simpl.
    rewrite He, Hretried. simpl.
    destruct (IH left (S k)) as [-> ->]; [lia| |by replace (S k + m)%nat with (k + S m)%nat by lia|done].
    intros j Hj. apply Hfail. lia.
Qed.


(** X1. Whatever the service does, a generation call invokes it at least once
    and at most 6 times, sleeps once between two invocations, for 1, 2, 4, 8
    and 10 seconds in that order, and so never sleeps more than 25 seconds in
    all. *)
Theorem generation_call_is_bounded (brandPhrases : list string) (fsys : FileSystem)
    (api : API) (index : nat) (row : Row) :
  (1 <= invocations (generateDescription brandPhrases fsys api index row) <= 6)%nat /\
  waits (generateDescription brandPhrases fsys api index row)
  = take (invocations (generateDescription brandPhrases fsys api index row) - 1)
         [1000; 2000; 4000; 8000; 10000]%N /\
  (foldr N.add 0 (waits (generateDescription brandPhrases fsys api index row))
   <= 25000)%N.
Proof.
  pose proof (generateDescription_invocations_pos brandPhrases fsys api index row) as Hpos.
  pose proof (generateDescription_invocations_le brandPhrases fsys api index row) as Hle.
  assert (waits (generateDescription brandPhrases fsys api index row)
          = take (invocations (generateDescription brandPhrases fsys api index row) - 1)
                 [1000; 2000; 4000; 8000; 10000]%N) as Hw.
  { unfold generateDescription, pRetry in *. cbn [waits invocations] in *.
    rewrite retryFrom_waits.
    match goal with
    | |- context [invocations ?r] =>
        destruct (invocations r) as [|[|[|[|[|[|[|n]]]]]]]
    end; first [lia | reflexivity]. }
  split; [lia|]. split; [exact Hw|]. rewrite Hw.
  destruct (invocations (generateDescription brandPhrases fsys api index row))
    as [|[|[|[|[|[|[|n]]]]]]]; first [lia | by vm_compute].
Qed.

(** X2. When the service rejects the attempts before the n-th (n at most 6)
    with errors the helper retries and answers the n-th with a text, the call
    resolves with the trimmed text and the usage of that answer after exactly
    n invocations and n - 1 waits. *)
Theorem generation_resolves_at_first_answer (brandPhrases : list string)
    (fsys : FileSystem) (api : API) (index : nat) (row : Row) (n : nat)
    (completion : Completion) (text : string) (rest : list (option string)) :
  (1 <= n <= 6)%nat ->
  (forall j request, (1 <= j < n)%nat ->
     exists e, api index j request = Rejected e /\ endsRetrying e = false) ->
  (forall request, api index n request = Resolved completion) ->
  choices completion = Some text :: rest ->
  settled (generateDescription brandPhrases fsys api index row)
  = Resolved {| description := trim text; usage := responseUsage completion |} /\
  invocations (generateDescription brandPhrases fsys api index row) = n /\
  length (waits (generateDescription brandPhrases fsys api index row)) = (n - 1)%nat.
Proof.
  intros Hn Hfail Hok Hchoice.
  destruct (retryFrom_resolves_at
              (fun attempt => callOpenAI api index attempt
                                (buildMessages brandPhrases fsys row).1)
              retryOptions
              {| description := trim text; usage := responseUsage completion |}
              (n - 1) 5 1) as [Hs Hi].
  - lia.
  - intros j Hj. unfold callOpenAI.
    destruct (Hfail j {| model := "gpt-4o-mini";
                         messages := (buildMessages brandPhrases fsys row).1;
                         max_tokens := 250 |} ltac:(lia)) as (e & -> & He).
    by exists e.
  - unfold callOpenAI. replace (1 + (n - 1))%nat with n by lia.
    by rewrite Hok, Hchoice.
  - unfold generateDescription, pRetry. cbn [settled invocations waits].
    change (retries retryOptions) with 5%nat.
    rewrite retryFrom_waits, length_fmap, length_seq, Hs, Hi.
    split; [done|]. split; lia.
Qed.

Lemma generation_resolves_at_first_answer_witness :
  settled (generateDescription Scenario.phrases Scenario.disk Cases.serviceFlaky
             0 Scenario.mug)
  = Resolved {| description := "Sturdy."; usage := Scenario.tokens |} /\
  invocations (generateDescription Scenario.phrases Scenario.disk Cases.serviceFlaky
                 0 Scenario.mug) = 3%nat.
Proof.
  destruct (generation_resolves_at_first_answer Scenario.phrases Scenario.disk
              Cases.serviceFlaky 0 Scenario.mug 3
              {| choices := [Some " Sturdy. "]; responseUsage := Scenario.tokens |}
              " Sturdy. " [])
    as (Hs & Hi & _).
  - lia.
  - intros j request Hj. exists Scenario.outage. unfold Cases.serviceFlaky.
    destruct j as [|[|[|j]]]; first [lia | split; reflexivity].
  - reflexivity.
  - reflexivity.
  - split; [exact Hs|exact Hi].
Defined.



(** X19. An answer that carries no text fails the call at once: reading the
    text of a missing choice or trimming a [null] content throws a
    [TypeError], which the helper does not retry.  The call rejects after a
    single invocation and no wait, and the task that awaits it writes the row
    with the error marker. *)
Theorem answer_without_text_fails_at_once (brandPhrases : list string)
    (fsys : FileSystem) (api : API) (index : nat) (row : Row)
    (completion : Completion) :
  (forall request, api index 1%nat request = Resolved completion) ->
  head (choices completion) = None \/ head (choices completion) = Some None ->
  let g := generateDescription brandPhrases fsys api index row in
  invocations g = 1%nat /\
  waits g = [] /\
  exists e,
    settled g = Rejected e /\
    errorClass e = OtherTypeError /\
    forall existingMap total slot s,
      active s !! slot = Some ({| taskIndex := index; taskRow := row |}, Awaiting) ->
      exists s',
        step brandPhrases fsys api existingMap total (Settle slot) s = Some s' /\
        written s' = written s ++
          [<[ "Product Description" := "ERROR: " +:+ message e ]> row].
Proof.
  intros Hok Hnone g.
  assert (exists e,
            callOpenAI api index 1 (buildMessages brandPhrases fsys row).1 = Rejected e /\
            errorClass e = OtherTypeError) as (e & Hcall & He).
  { unfold callOpenAI. rewrite Hok.
    destruct (choices completion) as [|[text|] rest]; simpl in Hnone.
    - by eexists.
    - by destruct Hnone as [?|[=]].
    - by eexists. }
  assert (endsRetrying e = true) as Hends.
  { unfold endsRetrying. rewrite He. by apply bool_decide_eq_true. }
  assert (g = {| settled := Rejected e; invocations := 1; waits := [];
                 warnings := (buildMessages brandPhrases fsys row).2 ++ [] |}) as Hg.
  { unfold g, generateDescription, pRetry.
    by rewrite (retryFrom_ends _ _ _ _ e Hcall Hends). }
  split; [by rewrite Hg|]. split; [by rewrite Hg|].
  exists e. split; [by rewrite Hg|]. split; [done|].
  intros existingMap total slot s Hslot. eexists. split.
  - unfold step. rewrite Hslot. reflexivity.
  - unfold settleTask. cbn [taskIndex taskRow]. fold g. by rewrite Hg.
Qed.

Lemma answer_without_text_fails_at_once_witness :
  invocations (generateDescription Scenario.phrases Scenario.disk Cases.serviceSilent
                 0 Scenario.mug) = 1%nat /\
  settled (generateDescription Scenario.phrases Scenario.disk Cases.serviceSilent
             0 Scenario.mug)
  = Rejected (typeError "Cannot read properties of null (reading 'trim')").
Proof.
  pose proof (answer_without_text_fails_at_once Scenario.phrases Scenario.disk
                Cases.serviceSilent 0 Scenario.mug
                {| choices := [None]; responseUsage := Scenario.tokens |}
                (fun _ => eq_refl) (or_intror eq_refl)) as H.
  simpl in H. destruct H as (H1 & _). split; [exact H1|reflexivity].
Defined.

(** X4. Every request a generation call sends names the model [gpt-4o-mini],
    bounds the answer to 250 tokens and carries the messages built from the
    row: two services that agree on such requests give the same outcome, the
    same number of invocations and the same printed lines. *)
Theorem generation_requests_are_fixed (brandPhrases : list string) (fsys : FileSystem)
    (api1 api2 : API) (index : nat) (row : Row) :
  (forall attemptNumber request,
     model request = "gpt-4o-mini" -> max_tokens request = 250%N ->
     messages request = (buildMessages brandPhrases fsys row).1 ->
     api1 index attemptNumber request = api2 index attemptNumber request) ->
  generateDescription brandPhrases fsys api1 index row
  = generateDescription brandPhrases fsys api2 index row.
Proof.
  intros Hagree. unfold generateDescription, pRetry.
  rewrite (retryFrom_ext
             (fun attempt => callOpenAI api1 index attempt
                               (buildMessages brandPhrases fsys row).1)
             (fun attempt => callOpenAI api2 index attempt
                               (buildMessages brandPhrases fsys row).1)); [done|].
  intros j. unfold callOpenAI. by rewrite Hagree.
Qed.

Lemma generation_requests_are_fixed_witness :
  generateDescription Scenario.phrases Scenario.disk Cases.serviceByModel 0 Scenario.mug
  = generateDescription Scenario.phrases Scenario.disk
      (Scenario.serviceSaying "Sturdy.") 0 Scenario.mug.
Proof.
  apply (generation_requests_are_fixed Scenario.phrases Scenario.disk
           Cases.serviceByModel (Scenario.serviceSaying "Sturdy.") 0 Scenario.mug).
  intros attemptNumber request Hmodel _ _.
  unfold Cases.serviceByModel, Scenario.serviceSaying. rewrite Hmodel. reflexivity.
Defined.

(** ** The text of a generated description *)

Lemma chars_rev_app (s1 s2 : string) :
  list_ascii_of_string (String.rev_app s1 s2)
  = reverse (list_ascii_of_string s1) ++ list_ascii_of_string s2.
Proof.
  revert s2. induction s1 as [|c s1 IH]; intros s2; simpl; [done|].
  rewrite IH, reverse_cons, <- app_assoc. done.
Qed.

Lemma chars_rev (s : string) :
  list_ascii_of_string (String.rev s) = reverse (list_ascii_of_string s).
Proof. unfold String.rev. rewrite chars_rev_app. simpl. by rewrite app_nil_r. Qed.

Lemma chars_trimStart (s : string) :
  list_ascii_of_string (trimStart s) = dropSpace (list_ascii_of_string s).
Proof. induction s as [|c s IH]; simpl; [done|]. by destruct (isWhiteSpace c). Qed.

Lemma chars_inj (s1 s2 : string) :
  list_ascii_of_string s1 = list_ascii_of_string s2 -> s1 = s2.
Proof.
  intros H. rewrite <- (string_of_list_ascii_of_string s1),
    <- (string_of_list_ascii_of_string s2). by rewrite H.
Qed.

(** A list of characters that does not begin with white space. *)
Local Abbreviation clean l :=
  (match l with c :: _ => isWhiteSpace c = false | [] => True end).

Lemma dropSpace_clean (l : list ascii) : clean (dropSpace l).
Proof.
  induction l as [|c l IH]; simpl; [done|].
  destruct (isWhiteSpace c) eqn:E; [exact IH|exact E].
Qed.

Lemma dropSpace_fixed (l : list ascii) : clean l -> dropSpace l = l.
Proof. destruct l as [|c l]; simpl; [done|]. by intros ->. Qed.

Lemma dropSpace_snoc (l : list ascii) (c : ascii) :
  isWhiteSpace c = false -> dropSpace (l ++ [c]) = dropSpace l ++ [c].
Proof.
  intros Hc. induction l as [|d l IH]; simpl; [by rewrite Hc|].
  by destruct (isWhiteSpace d).
Qed.

Lemma trimEnd_keeps_clean (l : list ascii) :
  clean l -> clean (reverse (dropSpace (reverse l))).
Proof.
  destruct l as [|c l]; [done|]. intros Hc.
  rewrite reverse_cons, dropSpace_snoc, reverse_app by done. done.
Qed.

Lemma chars_trim (s : string) :
  list_ascii_of_string (trim s)
  = reverse (dropSpace (reverse (dropSpace (list_ascii_of_string s)))).
Proof.
  unfold trim, trimEnd. by rewrite chars_rev, chars_trimStart, chars_rev, chars_trimStart.
Qed.

Lemma leadingSpace_chars (s : string) :
  leadingSpace s = false <-> clean (list_ascii_of_string s).
Proof. by destruct s. Qed.

Lemma trim_is_trimmed (s : string) :
  leadingSpace (trim s) = false /\ trailingSpace (trim s) = false /\
  trim (trim s) = trim s.
Proof.
  pose proof (dropSpace_clean (list_ascii_of_string s)) as H1.
  pose proof (trimEnd_keeps_clean _ H1) as H2.
  pose proof (dropSpace_clean (reverse (dropSpace (list_ascii_of_string s)))) as H3.
  split; [|split].
  - apply leadingSpace_chars. by rewrite chars_trim.
  - unfold trailingSpace. apply leadingSpace_chars.
    by rewrite chars_rev, chars_trim, reverse_involutive.
  - apply chars_inj. rewrite (chars_trim (trim s)), chars_trim.
    rewrite (dropSpace_fixed _ H2), reverse_involutive.
    by rewrite (dropSpace_fixed _ H3).
Qed.

(** X5. A description obtained from the service never begins or ends with
    white space, and trimming it again changes nothing; in particular an
    answer made of white space only becomes the empty description. *)
Theorem callOpenAI_description_is_trimmed (api : API) (index attemptNumber : nat)
    (messages : list Message) (result : GenerationResult) :
  callOpenAI api index attemptNumber messages = Resolved result ->
  leadingSpace (description result) = false /\
  trailingSpace (description result) = false /\
  trim (description result) = description result.
Proof.
  unfold callOpenAI. destruct (api _ _ _) as [completion|]; [|done].
  destruct (choices completion) as [|[text|] rest]; [done| |done].
  intros [= <-]. apply trim_is_trimmed.
Qed.

Lemma callOpenAI_description_is_trimmed_witness :
  callOpenAI Cases.serviceFlaky 0 3 [] =
    Resolved {| description := "Sturdy."; usage := Scenario.tokens |} /\
  trailingSpace "Sturdy." = false.
Proof.
  assert (callOpenAI Cases.serviceFlaky 0 3 [] =
            Resolved {| description := "Sturdy."; usage := Scenario.tokens |}) as H
    by reflexivity.
  split; [exact H|].
  exact (proj1 (proj2 (callOpenAI_description_is_trimmed _ _ _ _ _ H))).
Defined.

(** ** The request *)

(** X6. Building the request prints a warning exactly when the image field
    names an existing local file, not taken for a remote one, whose read
    fails; the request is then the text alone.  In every other case nothing is
    printed. *)
Theorem image_warning_only_on_failed_read (brandPhrases : list string)
    (fsys : FileSystem) (row : Row) :
  ((buildMessages brandPhrases fsys row).2 = [] \/
   exists url,
     (buildMessages brandPhrases fsys row).2 = [WarnImage url] /\
     (buildMessages brandPhrases fsys row).1
     = userMessage (promptFor brandPhrases row) []) /\
  forall url,
    (buildMessages brandPhrases fsys row).2 = [WarnImage url] <->
    row !! "Image Src" = Some url /\ url <> "" /\ startsWith url "http" = false /\
    existsSync fsys url = true /\ readFileSync fsys url = None.
Proof.
  unfold buildMessages, imageContent. cbn [fst snd].
  destruct (row !! "Image Src") as [u|] eqn:Hu.
  2:{ split; [by left|]. intros url. split; [done|]. by intros ([=] & _). }
  destruct (truthy (Some u)) eqn:Ht; cbn [andb].
  2:{ split; [by left|]. intros url. split; [done|].
      intros ([= ->] & Hne & _). apply truthy_Some in Hne. congruence. }
  apply truthy_Some in Ht.
  destruct (startsWith u "http") eqn:Hh.
  { split; [by left|]. intros url. split; [done|]. intros ([= ->] & _ & ? & _). congruence. }
  destruct (existsSync fsys u) eqn:He.
  2:{ split; [by left|]. intros url. split; [done|].
      intros ([= ->] & _ & _ & ? & _). congruence. }
  destruct (readFileSync fsys u) as [bytes|] eqn:Hr.
  { split; [by left|]. intros url. split; [done|].
    intros ([= ->] & _ & _ & _ & ?). congruence. }
  split; [right; by exists u|].
  intros url. split.
  - by intros [= <-].
  - by intros ([= ->] & _).
Qed.

(** X7. The prompt reads the five fields Title, Vendor, Product Category, Type
    and Tags and nothing else of the row: setting any other column leaves it
    unchanged, and a missing field reads as the text [undefined], exactly as if
    the column held that word. *)
Theorem prompt_reads_five_fields (brandPhrases : list string) (row : Row) :
  (forall key value,
     key ∉ ["Title"; "Vendor"; "Product Category"; "Type"; "Tags"] ->
     promptFor brandPhrases (<[ key := value ]> row) = promptFor brandPhrases row) /\
  (forall key,
     key ∈ ["Title"; "Vendor"; "Product Category"; "Type"; "Tags"] ->
     promptFor brandPhrases (delete key row)
     = promptFor brandPhrases (<[ key := "undefined" ]> row)).
Proof.
  split.
  - intros key value Hkey. rewrite !not_elem_of_cons in Hkey.
    destruct Hkey as (? & ? & ? & ? & ? & _).
    unfold promptFor. by rewrite !lookup_insert_ne.
  - intros key Hkey. rewrite !elem_of_cons in Hkey. unfold promptFor.
    destruct Hkey as [->|[->|[->|[->|[->|Hnil]]]]]; [..|by apply elem_of_nil in Hnil];
      rewrite ?lookup_delete_eq, ?lookup_insert_eq;
      rewrite ?lookup_delete_ne, ?lookup_insert_ne by done; done.
Qed.

(** ** The resume index, again *)

(** X8. The index holds exactly the identifiers that occur in the prior
    output, and what it gives for an identifier is a prior-output record with
    that identifier. *)
Theorem resume_index_domain (existingRows : list Row) (h : option string) :
  (is_Some (existingMapOf existingRows !! h) <->
   exists row : Row, row ∈ existingRows /\ row !! "Handle" = h) /\
  (forall row : Row,
     existingMapOf existingRows !! h = Some row ->
     row ∈ existingRows /\ row !! "Handle" = h).
Proof.
  split; [|intros row; apply existingMapOf_lookup_Some].
  split.
  - intros [row Hrow]. exists row. by apply existingMapOf_lookup_Some.
  - intros (row & Hin & Hh).
    destruct (existingMapOf existingRows !! h) eqn:E; [done|].
    apply existingMapOf_lookup_None in E. rewrite Forall_forall in E.
    by destruct (E row Hin).
Qed.

(** ** Invariants of a run *)

Lemma sum_list_Permutation (l1 l2 : list nat) : l1 ≡ₚ l2 -> sum_list l1 = sum_list l2.
Proof. induction 1; simpl; lia. Qed.

Lemma filter_length_pos {A : Type} (P : A -> Prop) `{!forall x, Decision (P x)}
    (l : list A) (x : A) :
  x ∈ l -> P x -> 1 <= length (filter P l).
Proof.
  intros Hin HP. assert (x ∈ filter P l) as Hf by by apply list_elem_of_filter.
  destruct (filter P l); [by apply elem_of_nil in Hf|simpl; lia].
Qed.

Lemma tasksOf_rows (inputRows : list Row) : taskRow <$> tasksOf inputRows = inputRows.
Proof.
  unfold tasksOf. rewrite fmap_imap.
  rewrite (imap_ext _ (fun _ row => row)) by done.
  induction inputRows as [|row rows IH] using rev_ind; [done|].
  by rewrite imap_app, IH.
Qed.

Lemma tasksOf_length (inputRows : list Row) : length (tasksOf inputRows) = length inputRows.
Proof. unfold tasksOf. apply length_imap. Qed.

Section RunInvariants.
Variable brandPhrases : list string.
Variable fsys : FileSystem.
Variable api : API.
Variable existingMap : gmap (option string) Row.
Variable total : nat.

Local Abbreviation step_ := (step brandPhrases fsys api existingMap total).
Local Abbreviation run_ := (run brandPhrases fsys api existingMap total).
Local Abbreviation pending_ t := (alreadyDone existingMap (taskRow t) = false).

(** A started task stands in the phase its row calls for, and tasks only move
    from the queue to the started ones. *)
Lemma step_keeps_tasks (Q : Task -> Prop) (c : Choice) (s s' : RunState) :
  step_ c s = Some s' ->
  Forall Q (queue s) ->
  Forall (fun started => Q started.1 /\ started.2 = phaseOf existingMap started.1)
    (active s) ->
  Forall Q (queue s') /\
  Forall (fun started => Q started.1 /\ started.2 = phaseOf existingMap started.1)
    (active s').
Proof.
  destruct c as [|slot]; simpl.
  - destruct (queue s) as [|t q] eqn:Hq; [done|]. case_decide; [|done].
    intros [= <-] Hqueue Hactive. apply Forall_cons in Hqueue as [Ht Hqueue].
    rewrite startTask_phase. simpl. rewrite Hq. simpl. split; [done|].
    apply Forall_app. split; [done|]. by constructor.
  - destruct (active s !! slot) as [[t phase]|] eqn:Hslot; [|done].
    intros [= <-] Hqueue Hactive.
    destruct (settleTask_rest brandPhrases fsys api slot t phase s) as [-> ->].
    split; [done|]. by apply Forall_delete.
Qed.

Lemma run_keeps_tasks (Q : Task -> Prop) (schedule : list Choice) (s s' : RunState) :
  run_ schedule s = Some s' ->
  Forall Q (queue s) ->
  Forall (fun started => Q started.1 /\ started.2 = phaseOf existingMap started.1)
    (active s) ->
  Forall Q (queue s') /\
  Forall (fun started => Q started.1 /\ started.2 = phaseOf existingMap started.1)
    (active s').
Proof.
  revert s. induction schedule as [|c schedule IH]; intros s; simpl.
  - by intros [= <-].
  - destruct (step_ c s) as [s1|] eqn:Hstep; [|done]. intros Hrun Hq Ha.
    destruct (step_keeps_tasks Q _ _ _ Hstep Hq Ha). by eapply IH.
Qed.

(** The queue is always a tail of the submitted tasks. *)
Lemma run_queue_is_tail (tasks : list Task) (schedule : list Choice) (s s' : RunState) :
  run_ schedule s = Some s' ->
  (exists k, queue s = drop k tasks) -> exists k, queue s' = drop k tasks.
Proof.
  revert s. induction schedule as [|c schedule IH]; intros s; simpl.
  - by intros [= <-].
  - destruct (step_ c s) as [s1|] eqn:Hstep; [|done]. intros Hrun [k Hk].
    apply (IH _ Hrun). revert Hstep. destruct c as [|slot]; simpl.
    + destruct (queue s) as [|t q] eqn:Hq; [done|]. case_decide; [|done].
      intros [= <-]. exists (S k). simpl. rewrite Hq. simpl.
      change q with (drop 1 (t :: q)). rewrite Hk, drop_drop. f_equal. lia.
    + destruct (active s !! slot) as [[t phase]|] eqn:Hslot; [|done].
      intros [= <-].
      destruct (settleTask_rest brandPhrases fsys api slot t phase s) as [-> _].
      by exists k.
Qed.

(** Token totals move only when a generation resolves. *)
Lemma run_totals_unchanged (schedule : list Choice) (s s' : RunState) :
  run_ schedule s = Some s' ->
  Forall (fun t => pending_ t ->
            exists e, settled (generateDescription brandPhrases fsys api
                                 (taskIndex t) (taskRow t)) = Rejected e) (queue s) ->
  Forall (fun started =>
            (pending_ started.1 ->
             exists e, settled (generateDescription brandPhrases fsys api
                                  (taskIndex started.1) (taskRow started.1)) = Rejected e)
            /\ started.2 = phaseOf existingMap started.1) (active s) ->
  totalPromptTokens s' = totalPromptTokens s /\
  totalCompletionTokens s' = totalCompletionTokens s.
Proof.
  revert s. induction schedule as [|c schedule IH]; intros s Hrun Hq Ha;
    simpl in Hrun.
  - by injection Hrun as <-.
  - destruct (step_ c s) as [s1|] eqn:Hstep; [|done].
    destruct (step_keeps_tasks _ _ _ _ Hstep Hq Ha) as [Hq1 Ha1].
    destruct (IH _ Hrun Hq1 Ha1) as [-> ->].
    revert Hstep. destruct c as [|slot]; simpl.
    + destruct (queue s) as [|t q]; [done|]. case_decide; [|done]. by intros [= <-].
    + destruct (active s !! slot) as [[t phase]|] eqn:Hslot; [|done].
      intros [= <-]. rewrite Forall_lookup in Ha.
      destruct (Ha _ _ Hslot) as [Hrej Hphase]. cbn [fst snd] in Hrej, Hphase.
      unfold settleTask. destruct phase; [done|].
      unfold phaseOf in Hphase.
      destruct (alreadyDone existingMap (taskRow t)) eqn:Hdone; [done|].
      destruct (Hrej eq_refl) as [e He]. by rewrite He.
Qed.

(** X13. New rows are written in the order in which tasks settle, not in input
    order: in every state a run can reach, the output is the prior-output rows
    followed by what each settled task wrote, task after task in order of
    settlement. *)
Theorem rows_follow_settlement_order (inputRows existingRows : list Row)
    (schedule : list Choice) (s : RunState) :
  run_ schedule (initialState inputRows existingRows) = Some s ->
  written s
  = existingRows
    ++ ((settledTasks s).*1
          ≫= writtenBy brandPhrases fsys api existingMap inputRows).
Proof.
  assert (forall schedule s s',
            run_ schedule s = Some s' ->
            Forall (fun t => t ∈ tasksOf inputRows) (queue s) ->
            Forall (fun started => started.1 ∈ tasksOf inputRows /\
                                   started.2 = phaseOf existingMap started.1) (active s) ->
            written s = existingRows
              ++ ((settledTasks s).*1
                    ≫= writtenBy brandPhrases fsys api existingMap inputRows) ->
            written s' = existingRows
              ++ ((settledTasks s').*1
                    ≫= writtenBy brandPhrases fsys api existingMap inputRows)) as Hgen.
  { clear schedule s. intros schedule.
    induction schedule as [|c schedule IH]; intros s s'; simpl.
    - by intros [= <-].
    - destruct (step_ c s) as [s1|] eqn:Hstep; [|done]. intros Hrun Hq Ha Hw.
      destruct (step_keeps_tasks _ _ _ _ Hstep Hq Ha) as [Hq1 Ha1].
      apply (IH _ _ Hrun Hq1 Ha1). clear IH Hrun Hq1 Ha1.
      revert Hstep. destruct c as [|slot]; simpl.
      + destruct (queue s) as [|t q]; [done|]. case_decide; [|done]. by intros [= <-].
      + destruct (active s !! slot) as [[t phase]|] eqn:Hslot; [|done].
        intros [= <-]. rewrite Forall_lookup in Ha.
        destruct (Ha _ _ Hslot) as [Hin Hphase]. simpl in Hin, Hphase. subst phase.
        rewrite settleTask_written, settleTask_settled, Hw.
        rewrite fmap_app, bind_app, <- app_assoc. f_equal. f_equal.
        simpl. rewrite app_nil_r.
        apply elem_of_tasksOf in Hin. unfold writtenBy, owedRow, phaseOf.
        cbn [fst snd owedSettle]. rewrite Hin.
        destruct (alreadyDone existingMap (taskRow t)); [done|]. by destruct t. }
  intros Hrun. apply (Hgen _ _ _ Hrun).
  - apply Forall_forall. by intros t Ht.
  - constructor.
  - rewrite initialState_written. simpl. by rewrite app_nil_r.
Qed.

End RunInvariants.

(** ** Counting rows and calls *)

Section Counting.
Variable brandPhrases : list string.
Variable fsys : FileSystem.
Variable api : API.
Variable existingMap : gmap (option string) Row.

Lemma owed_count (tasks : list Task) :
  length ((begun existingMap <$> tasks) ≫= owedRow brandPhrases fsys api)
  = length (pendingRows existingMap (taskRow <$> tasks)).
Proof.
  unfold pendingRows. induction tasks as [|t tasks IH]; [done|].
  rewrite !fmap_cons, bind_cons, length_app, IH, filter_cons.
  unfold owedRow, begun, phaseOf. cbn [fst snd].
  destruct (alreadyDone existingMap (taskRow t)); by case_decide.
Qed.

Lemma owedSettle_bounds (t : Task) :
  (alreadyDone existingMap (taskRow t) = true /\
   (owedSettle brandPhrases fsys api (begun existingMap t)).2 = 0%nat) \/
  (alreadyDone existingMap (taskRow t) = false /\
   1 <= (owedSettle brandPhrases fsys api (begun existingMap t)).2 <= 6).
Proof.
  pose proof (generateDescription_invocations_pos brandPhrases fsys api
                (taskIndex t) (taskRow t)).
  pose proof (generateDescription_invocations_le brandPhrases fsys api
                (taskIndex t) (taskRow t)).
  unfold owedSettle, begun, phaseOf. cbn [fst snd].
  destruct (alreadyDone existingMap (taskRow t)); [by left|by right].
Qed.

Lemma owed_calls_bounds (tasks : list Task) :
  length (pendingRows existingMap (taskRow <$> tasks))
  <= sum_list (owedSettle brandPhrases fsys api <$> (begun existingMap <$> tasks)).*2
  <= 6 * length (pendingRows existingMap (taskRow <$> tasks)).
Proof.
  unfold pendingRows. induction tasks as [|t tasks IH]; [simpl; lia|].
  rewrite !fmap_cons, filter_cons.
  change (sum_list (?x :: ?l)) with (x + sum_list l).
  destruct (owedSettle_bounds t) as [[Hd ->]|[Hd Hb]]; case_decide; try congruence;
    cbn [length]; lia.
Qed.

End Counting.

(** X9. A complete run leaves in the output the prior-output rows and one more
    row for each input row that was not already done, two input rows with the
    same identifier counting twice. *)
Theorem output_row_count (brandPhrases : list string) (fsys : FileSystem) (api : API)
    (schedule : list Choice) (inputRows existingRows : list Row) (s : RunState) :
  processRows brandPhrases fsys api schedule inputRows existingRows = Some s ->
  length (written s)
  = length existingRows
    + length (pendingRows (existingMapOf existingRows) inputRows).
Proof.
  intros Hp. apply processRows_Some in Hp as [Hrun Hdone].
  destruct (run_complete_ledger _ _ _ _ _ _ _ _ _ Hrun Hdone)
    as [(W & Hw & HW) _].
  by rewrite Hw, length_app, HW, owed_count, tasksOf_rows.
Qed.

Lemma output_row_count_witness :
  processRows Scenario.phrases Scenario.disk (Scenario.serviceSaying "Sturdy.")
    (oneByOne 2) [Scenario.mug; Scenario.mug] [Scenario.vase]
  = Some (Scenario.outcome
            (processRows Scenario.phrases Scenario.disk (Scenario.serviceSaying "Sturdy.")
               (oneByOne 2) [Scenario.mug; Scenario.mug] [Scenario.vase])) /\
  length (written (Scenario.outcome
            (processRows Scenario.phrases Scenario.disk (Scenario.serviceSaying "Sturdy.")
               (oneByOne 2) [Scenario.mug; Scenario.mug] [Scenario.vase]))) = 3%nat.
Proof.
  assert (processRows Scenario.phrases Scenario.disk (Scenario.serviceSaying "Sturdy.")
            (oneByOne 2) [Scenario.mug; Scenario.mug] [Scenario.vase]
          = Some (Scenario.outcome
                    (processRows Scenario.phrases Scenario.disk
                       (Scenario.serviceSaying "Sturdy.")
                       (oneByOne 2) [Scenario.mug; Scenario.mug] [Scenario.vase])))
    as Hrun by evaluate.
  split; [exact Hrun|].
  rewrite (output_row_count _ _ _ _ _ _ _ Hrun). evaluate.
Defined.

(** X10. A complete run invokes the service at least once and at most 6 times
    for each input row that was not already done, and not at all for the
    others. *)
Theorem api_calls_bounds (brandPhrases : list string) (fsys : FileSystem) (api : API)
    (schedule : list Choice) (inputRows existingRows : list Row) (s : RunState) :
  processRows brandPhrases fsys api schedule inputRows existingRows = Some s ->
  length (pendingRows (existingMapOf existingRows) inputRows) <= apiCalls s
  <= 6 * length (pendingRows (existingMapOf existingRows) inputRows).
Proof.
  intros Hp. apply processRows_Some in Hp as [Hrun Hdone].
  destruct (run_complete_ledger _ _ _ _ _ _ _ _ _ Hrun Hdone) as [_ Hs].
  unfold apiCalls.
  rewrite (sum_list_Permutation _ _ (fmap_Permutation snd _ _ Hs)).
  pose proof (owed_calls_bounds brandPhrases fsys api (existingMapOf existingRows)
                (tasksOf inputRows)) as Hb.
  by rewrite tasksOf_rows in Hb.
Qed.

Lemma api_calls_bounds_witness :
  processRows Scenario.phrases Scenario.disk Scenario.serviceDown
    [Dequeue; Dequeue; Settle 1; Settle 0]
    [Scenario.mug; Scenario.lamp] [Scenario.vase] = Some Scenario.failedRun /\
  apiCalls Scenario.failedRun = 12%nat /\
  apiCalls Scenario.failedRun <= 6 * 2.
Proof.
  assert (processRows Scenario.phrases Scenario.disk Scenario.serviceDown
            [Dequeue; Dequeue; Settle 1; Settle 0]
            [Scenario.mug; Scenario.lamp] [Scenario.vase]
          = Some Scenario.failedRun) as Hrun by evaluate.
  split; [exact Hrun|]. split; [evaluate|].
  pose proof (api_calls_bounds _ _ _ _ _ _ _ Hrun) as [_ Hle].
  etrans; [exact Hle|]. apply Nat.eq_le_incl. evaluate.
Defined.

(** X11. Token totals move only when a generation resolves: in a complete run
    where every input row is already done or fails for good, both totals are
    still 0, the estimate is 0 and the report prints 0.0000. *)
Theorem no_success_no_tokens (brandPhrases : list string) (fsys : FileSystem)
    (api : API) (schedule : list Choice) (inputRows existingRows : list Row)
    (s : RunState) :
  processRows brandPhrases fsys api schedule inputRows existingRows = Some s ->
  (forall i row,
     inputRows !! i = Some row ->
     alreadyDone (existingMapOf existingRows) row = false ->
     exists e, settled (generateDescription brandPhrases fsys api i row) = Rejected e) ->
  totalPromptTokens s = 0%float /\
  totalCompletionTokens s = 0%float /\
  exists cost,
    estimateCost (totalPromptTokens s) (totalCompletionTokens s) "gpt-4o-mini"
    = Resolved cost /\
    totalCost cost = 0%float /\
    toFixed 4 (totalCost cost) = Some "0.0000".
Proof.
  intros Hp Hfail. apply processRows_Some in Hp as [Hrun _].
  destruct (run_totals_unchanged _ _ _ _ _ _ _ _ Hrun) as [Hp Hc].
  - apply Forall_forall. intros t Ht Hpending. apply elem_of_tasksOf in Ht.
    by apply Hfail.
  - constructor.
  - simpl in Hp, Hc. rewrite Hp, Hc. split; [done|]. split; [done|].
    eexists. split; [reflexivity|]. split; reflexivity.
Qed.

Lemma no_success_no_tokens_witness :
  processRows Scenario.phrases Scenario.disk Scenario.serviceDown
    [Dequeue; Dequeue; Settle 1; Settle 0]
    [Scenario.mug; Scenario.lamp] [Scenario.vase] = Some Scenario.failedRun /\
  totalPromptTokens Scenario.failedRun = 0%float.
Proof.
  assert (processRows Scenario.phrases Scenario.disk Scenario.serviceDown
            [Dequeue; Dequeue; Settle 1; Settle 0]
            [Scenario.mug; Scenario.lamp] [Scenario.vase]
          = Some Scenario.failedRun) as Hrun by evaluate.
  split; [exact Hrun|].
  refine (proj1 (no_success_no_tokens _ _ _ _ _ _ _ Hrun _)).
  intros i row _ _. exists Scenario.outage.
  unfold generateDescription, pRetry. cbn [settled].
  exact (proj1 (proj2 (retryFrom_exhausted _ retryOptions (fun _ => Scenario.outage)
                         5 1 (fun _ _ => conj eq_refl eq_refl)))).
Defined.

(** ** Order of starts and of writes *)

(** X12. The limiter starts tasks in input order: in every state a run can
    reach, the queue holds the tasks of the input rows from some position k
    on, and the tasks started so far, settled or not, are exactly those of the
    first k rows. *)
Theorem tasks_start_in_input_order (brandPhrases : list string) (fsys : FileSystem)
    (api : API) (existingMap : gmap (option string) Row) (total : nat)
    (inputRows existingRows : list Row) (schedule : list Choice) (s : RunState) :
  run brandPhrases fsys api existingMap total schedule
      (initialState inputRows existingRows) = Some s ->
  exists k,
    k <= length inputRows /\
    queue s = drop k (tasksOf inputRows) /\
    (settledTasks s).*1 ++ ((fun started => taskIndex started.1) <$> active s)
    ≡ₚ seq 0 k.
Proof.
  intros Hrun.
  destruct (run_queue_is_tail brandPhrases fsys api existingMap total
              (tasksOf inputRows) _ _ _ Hrun) as [k0 Hk0]; [by exists 0|].
  set (k := k0 `min` length inputRows).
  assert (queue s = drop k (tasksOf inputRows)) as Hk.
  { rewrite Hk0. unfold k. destruct (Nat.min_spec k0 (length inputRows)) as [[_ ->]|[Hge ->]];
      [done|]. by rewrite !drop_ge by (rewrite tasksOf_length; lia). }
  exists k. split; [unfold k; lia|]. split; [done|].
  destruct (run_ledger _ _ _ _ _ _ _ _ Hrun) as [_ (D & Hd & Hperm)].
  simpl in Hd. subst D.
  apply (fmap_Permutation fst) in Hperm.
  unfold owedSettles in Hperm. simpl in Hperm.
  rewrite !fmap_app, !owedSettle_index, Hk in Hperm.
  rewrite fmap_drop, tasksOf_indices, drop_seq, <- list_fmap_compose in Hperm.
  simpl in Hperm.
  assert (seq 0 (length inputRows) = seq 0 k ++ seq k (length inputRows - k)) as Hsplit.
  { rewrite <- seq_app. f_equal. unfold k. lia. }
  rewrite Hsplit, app_assoc in Hperm.
  apply Permutation_app_inv_r in Hperm. by rewrite <- Hperm.
Qed.

Lemma tasks_start_in_input_order_witness :
  run Scenario.phrases Scenario.disk (Scenario.serviceSaying "Sturdy.") ∅ 3
      [Dequeue; Dequeue]
      (initialState [Scenario.mug; Scenario.lamp; Scenario.mug] [])
  = Some Scenario.twoStarted /\
  exists k, queue Scenario.twoStarted
            = drop k (tasksOf [Scenario.mug; Scenario.lamp; Scenario.mug]).
Proof.
  assert (run Scenario.phrases Scenario.disk (Scenario.serviceSaying "Sturdy.") ∅ 3
            [Dequeue; Dequeue]
            (initialState [Scenario.mug; Scenario.lamp; Scenario.mug] [])
          = Some Scenario.twoStarted) as Hrun by evaluate.
  split; [exact Hrun|].
  destruct (tasks_start_in_input_order _ _ _ _ _ _ _ _ _ Hrun) as (k & _ & Hk & _).
  by exists k.
Defined.

(** The second task settles first and its row comes first. *)
Lemma rows_follow_settlement_order_witness :
  run Scenario.phrases Scenario.disk Scenario.serviceDown
      (existingMapOf [Scenario.vase]) 2 [Dequeue; Dequeue; Settle 1; Settle 0]
      (initialState [Scenario.mug; Scenario.lamp] [Scenario.vase])
  = Some Scenario.failedRun /\
  (settledTasks Scenario.failedRun).*1 = [1; 0]%nat /\
  written Scenario.failedRun
  = [Scenario.vase]
    ++ ([1; 0]%nat ≫= writtenBy Scenario.phrases Scenario.disk Scenario.serviceDown
                         (existingMapOf [Scenario.vase]) [Scenario.mug; Scenario.lamp]).
Proof.
  assert (run Scenario.phrases Scenario.disk Scenario.serviceDown
            (existingMapOf [Scenario.vase]) 2 [Dequeue; Dequeue; Settle 1; Settle 0]
            (initialState [Scenario.mug; Scenario.lamp] [Scenario.vase])
          = Some Scenario.failedRun) as Hrun by evaluate.
  assert ((settledTasks Scenario.failedRun).*1 = [1; 0]%nat) as Hs by evaluate.
  split; [exact Hrun|]. split; [exact Hs|].
  rewrite <- Hs. exact (rows_follow_settlement_order _ _ _ _ _ _ _ _ _ Hrun).
Defined.

(** ** The pricing model *)

Lemma times_nan (x : float) : Prim2SF (x * nan) = S754_nan.
Proof.
  rewrite mul_spec. change (Prim2SF nan) with S754_nan.
  by destruct (Prim2SF x).
Qed.

Lemma nan_plus (x y : float) : Prim2SF x = S754_nan -> Prim2SF (x + y) = S754_nan.
Proof. intros H. by rewrite add_spec, H. Qed.

Lemma toFixed_nan (fractionDigits : nat) (x : float) :
  Prim2SF x = S754_nan -> toFixed fractionDigits x = Some "NaN".
Proof. intros H. unfold toFixed. by rewrite H. Qed.

Lemma ratesOf_cases (model : string) :
  (model = "gpt-4o-mini" /\ ratesOf model = Some {| input := 0.150; output := 0.600 |}) \/
  (model <> "gpt-4o-mini" /\ model ∈ inheritedNames /\
   ratesOf model = Some {| input := nan; output := nan |}) \/
  (model <> "gpt-4o-mini" /\ (model ∉ inheritedNames) /\ ratesOf model = None).
Proof.
  unfold ratesOf, MODEL_PRICING.
  destruct (decide (model = "gpt-4o-mini")) as [->|Hne].
  - left. by rewrite lookup_singleton_eq.
  - right. rewrite lookup_singleton_ne by done.
    destruct (decide (model ∈ inheritedNames)) as [Hin|Hout].
    + left. by rewrite bool_decide_eq_true_2.
    + right. by rewrite bool_decide_eq_false_2.
Qed.

(** X14. The [model] argument of [processCSV] selects the rates and nothing
    else.  For [gpt-4o-mini] the estimate uses the rates 0.150 and 0.600.  For
    a name every object inherits, such as [toString], the table gives
    something without rates: nothing fails, every cost is NaN and the report
    prints NaN.  For any other name the estimate fails, after the rows were
    written, and no report line is printed.  The rows written, the calls made
    and the totals are the same for every model name. *)
Theorem model_only_selects_pricing (brandPhrases : list string) (fsys : FileSystem)
    (api : API) (schedule : list Choice) (inputFile outputFile model : string)
    (summary : Summary) :
  processCSV brandPhrases fsys api schedule inputFile outputFile model
  = Some (Resolved summary) ->
  (model = "gpt-4o-mini" ->
   exists cost,
     estimate summary = Resolved cost /\
     totalCost cost
     = (totalPromptTokens (final summary) / 1000000 * 0.150
        + totalCompletionTokens (final summary) / 1000000 * 0.600)%float) /\
  (model ∈ inheritedNames ->
   exists cost,
     estimate summary = Resolved cost /\
     Prim2SF (totalCost cost) = S754_nan /\
     report summary
     = [ LogDone outputFile;
         LogUsage (totalPromptTokens (final summary))
                  (totalCompletionTokens (final summary));
         LogCost (Some "NaN") (Some "NaN") (Some "NaN") ]) /\
  (model <> "gpt-4o-mini" -> model ∉ inheritedNames ->
   (exists e, estimate summary = Rejected e) /\ report summary = []) /\
  forall model',
    exists summary',
      processCSV brandPhrases fsys api schedule inputFile outputFile model'
      = Some (Resolved summary') /\
      final summary' = final summary.
Proof.
  unfold processCSV.
  destruct (loadCsv fsys inputFile) as [[inputRows|]|];
    [| done | by destruct (uncaughtWhileLoading fsys inputFile)].
  destruct (loadCsv fsys outputFile) as [[existingRows|]|];
    [| done | by destruct (uncaughtWhileLoading fsys outputFile)].
  destruct (processRows _ _ _ _ _ _) as [s|]; simpl; [|done].
  intros [= <-]. simpl. unfold estimateCost.
  split; [|split; [|split]].
  - intros ->. destruct (ratesOf_cases "gpt-4o-mini")
      as [[_ ->]|[[Hne _]|[Hne _]]]; [|done|done].
    by eexists.
  - intros Hin. destruct (ratesOf_cases model)
      as [[-> _]|[(_ & _ & ->)|(_ & Hout & _)]]; [|..|done].
    { exfalso. revert Hin. apply (bool_decide_unpack _). by vm_compute. }
    eexists. split; [done|]. cbn [totalCost inputCost outputCost input output].
    pose proof (times_nan (totalPromptTokens s / 1000000)) as Hi.
    pose proof (times_nan (totalCompletionTokens s / 1000000)) as Ho.
    pose proof (nan_plus _ (totalCompletionTokens s / 1000000 * nan) Hi) as Ht.
    split; [exact Ht|]. unfold reportLines.
    cbn [totalCost inputCost outputCost].
    by rewrite (toFixed_nan 4 _ Ht), (toFixed_nan 4 _ Hi), (toFixed_nan 4 _ Ho).
  - intros Hne Hout. destruct (ratesOf_cases model)
      as [[-> _]|[(_ & Hin & _)|(_ & _ & ->)]]; [done|done|].
    split; [by eexists|done].
  - intros model'. by eexists.
Qed.

(** The model name [toString]: the run ends well and the report prints NaN. *)
Lemma model_only_selects_pricing_witness :
  exists summary,
    processCSV Scenario.phrases Scenario.disk Scenario.serviceDown [] "input.csv"
      "output.csv" "toString" = Some (Resolved summary) /\
    report summary
    = [ LogDone "output.csv"; LogUsage 0 0;
        LogCost (Some "NaN") (Some "NaN") (Some "NaN") ].
Proof.
  eexists. split; [reflexivity|].
  destruct (proj1 (proj2 (model_only_selects_pricing Scenario.phrases Scenario.disk
                            Scenario.serviceDown [] "input.csv" "output.csv"
                            "toString" _ eq_refl))) as (cost & _ & _ & Hreport).
  - by apply (bool_decide_unpack _).
  - exact Hreport.
Defined.

(** ** Resuming, again *)



(** X18. The file has the columns of the first row handed to the writer.  When
    the prior output begins with a row without description column, no row of
    the file has a description, the rows the run wrote included; a run resumed
    from the file then finds no input row done, calls the service for each of
    them again and writes a row for each of them. *)
Theorem description_column_lost (brandPhrases1 brandPhrases2 : list string)
    (fsys1 fsys2 : FileSystem) (api1 api2 : API) (schedule1 schedule2 : list Choice)
    (inputRows rest : list Row) (first : Row) (s1 s2 : RunState) :
  processRows brandPhrases1 fsys1 api1 schedule1 inputRows (first :: rest) = Some s1 ->
  first !! "Product Description" = None ->
  processRows brandPhrases2 fsys2 api2 schedule2 inputRows (stored (written s1))
  = Some s2 ->
  (forall w : Row, w ∈ stored (written s1) -> w !! "Product Description" = None) /\
  (forall row : Row, alreadyDone (existingMapOf (stored (written s1))) row = false) /\
  length inputRows <= apiCalls s2 /\
  length (drop (length (stored (written s1))) (written s2)) = length inputRows.
Proof.
  intros H1 Hnone H2.
  assert (forall w : Row, w ∈ stored (written s1) ->
            w !! "Product Description" = None) as Hlost.
  { intros w Hin. apply processRows_Some in H1 as [Hrun Hdone].
    destruct (run_complete_ledger _ _ _ _ _ _ _ _ _ Hrun Hdone)
      as [(W & Hw & _) _].
    rewrite Hw in Hin. unfold stored in Hin. simpl in Hin.
    apply elem_of_cons in Hin as [->|Hin];
      [|apply list_elem_of_fmap in Hin as (w0 & -> & _)];
      rewrite project_lookup; apply decide_False; by apply not_elem_of_dom. }
  assert (forall row : Row,
            alreadyDone (existingMapOf (stored (written s1))) row = false) as Hnot.
  { intros row. unfold alreadyDone.
    destruct (existingMapOf _ !! _) as [existing|] eqn:E; [|done].
    apply existingMapOf_lookup_Some in E as [Hin _]. by rewrite (Hlost _ Hin). }
  assert (pendingRows (existingMapOf (stored (written s1))) inputRows = inputRows)
    as Hpending.
  { unfold pendingRows. induction inputRows as [|row rows IH]; [done|].
    rewrite filter_cons, decide_True by apply Hnot. f_equal.
    clear -Hnot. induction rows as [|r rows IH]; [done|].
    by rewrite filter_cons, decide_True, IH by apply Hnot. }
  split; [done|]. split; [done|].
  apply processRows_Some in H2 as [Hrun Hdone].
  destruct (run_complete_ledger _ _ _ _ _ _ _ _ _ Hrun Hdone)
    as [(W & Hw & HW) Hs].
  split.
  - unfold apiCalls.
    rewrite (sum_list_Permutation _ _ (fmap_Permutation snd _ _ Hs)).
    pose proof (owed_calls_bounds brandPhrases2 fsys2 api2
                  (existingMapOf (stored (written s1))) (tasksOf inputRows)) as Hb.
    rewrite tasksOf_rows, Hpending in Hb. lia.
  - by rewrite Hw, drop_app_length, HW, owed_count, tasksOf_rows, Hpending.
Qed.

(** The row [mug] after a prior output that holds [mug] without description:
    the description is not in the file, and the resumed run generates it
    again and leaves three rows. *)
Lemma description_column_lost_witness :
  processRows Scenario.phrases Scenario.disk (Scenario.serviceSaying "Sturdy.")
    (oneByOne 1) [Scenario.mug] [Scenario.mug] = Some Cases.headerlessRun /\
  written Cases.headerlessRun
  = [Scenario.mug; <[ "Product Description" := "Sturdy." ]> Scenario.mug] /\
  stored (written Cases.headerlessRun) = [Scenario.mug; Scenario.mug] /\
  apiCalls Cases.headerlessResumed = 1%nat /\
  length (written Cases.headerlessResumed) = 3%nat.
Proof.
  assert (processRows Scenario.phrases Scenario.disk (Scenario.serviceSaying "Sturdy.")
            (oneByOne 1) [Scenario.mug] [Scenario.mug]
          = Some Cases.headerlessRun) as H1 by evaluate.
  assert (processRows Scenario.phrases Scenario.disk (Scenario.serviceSaying "Sturdy.")
            (oneByOne 1) [Scenario.mug] (stored (written Cases.headerlessRun))
          = Some Cases.headerlessResumed) as H2 by evaluate.
  assert (Scenario.mug !! "Product Description" = None) as Hnone by evaluate.
  destruct (description_column_lost _ _ _ _ _ _ _ _ _ _ _ _ _ H1 Hnone H2)
    as (_ & _ & Hcalls & _).
  split; [exact H1|]. split; [evaluate|]. split; [evaluate|].
  split; [|evaluate]. apply Nat.le_antisymm; [|exact Hcalls].
  apply Nat.eq_le_incl. evaluate.
Defined.

(** X16. A run never writes a row for an identifier that is already done: no
    row written after the prior-output rows carries the identifier of an input
    row that the index marks as done. *)
Theorem done_identifiers_get_no_new_row (brandPhrases : list string)
    (fsys : FileSystem) (api : API) (schedule : list Choice)
    (inputRows existingRows : list Row) (s : RunState) (row w : Row) :
  processRows brandPhrases fsys api schedule inputRows existingRows = Some s ->
  row ∈ inputRows ->
  alreadyDone (existingMapOf existingRows) row = true ->
  w ∈ drop (length existingRows) (written s) ->
  w !! "Handle" <> row !! "Handle".
Proof.
  intros Hp Hrow Hdone Hin Heq. apply processRows_Some in Hp as [Hrun Hall].
  destruct (run_complete_ledger _ _ _ _ _ _ _ _ _ Hrun Hall)
    as [(W & Hw & HW) _].
  rewrite Hw, drop_app_length, HW in Hin.
  apply elem_of_owed in Hin as (t & _ & Hnot & ->).
  rewrite resultRow_handle in Heq.
  unfold alreadyDone in Hdone, Hnot. rewrite Heq in Hnot. congruence.
Qed.

Lemma done_identifiers_get_no_new_row_witness :
  processRows Scenario.phrases Scenario.disk (Scenario.serviceSaying "Sturdy.")
    (oneByOne 2) [Scenario.mug; Scenario.lamp] (written Scenario.failedRun)
  = Some Resumed.afterFailure /\
  forall w : Row, w ∈ drop 3 (written Resumed.afterFailure) ->
    w !! "Handle" <> Scenario.mug !! "Handle".
Proof.
  assert (processRows Scenario.phrases Scenario.disk (Scenario.serviceSaying "Sturdy.")
            (oneByOne 2) [Scenario.mug; Scenario.lamp] (written Scenario.failedRun)
          = Some Resumed.afterFailure) as H2 by evaluate.
  split; [exact H2|]. intros w Hw.
  apply (done_identifiers_get_no_new_row _ _ _ _ _ _ _ Scenario.mug w H2).
  - constructor.
  - evaluate.
  - replace (length (written Scenario.failedRun)) with 3%nat by evaluate. exact Hw.
Defined.

(** X17. A record that is generated again leaves its stale row in the output:
    when the index holds an input row's identifier with an empty or missing
    description, the output of a complete run has at least two rows with that
    identifier, the old one and the new one. *)
Theorem regenerated_record_is_duplicated (brandPhrases : list string)
    (fsys : FileSystem) (api : API) (schedule : list Choice)
    (inputRows existingRows : list Row) (s : RunState) (row existing : Row) :
  processRows brandPhrases fsys api schedule inputRows existingRows = Some s ->
  row ∈ inputRows ->
  existingMapOf existingRows !! (row !! "Handle") = Some existing ->
  truthy (existing !! "Product Description") = false ->
  2 <= length (filter (fun w : Row => w !! "Handle" = row !! "Handle") (written s)).
Proof.
  intros Hp Hrow Hex Hempty. apply processRows_Some in Hp as [Hrun Hall].
  destruct (run_complete_ledger _ _ _ _ _ _ _ _ _ Hrun Hall)
    as [(W & Hw & HW) _].
  apply existingMapOf_lookup_Some in Hex as Hold. destruct Hold as [Hold Hh].
  apply list_elem_of_lookup in Hrow as [i Hi].
  set (t := {| taskIndex := i; taskRow := row |}).
  assert (resultRow brandPhrases fsys api t ∈ W) as Hnew.
  { rewrite HW. apply elem_of_owed. exists t. split; [by apply elem_of_tasksOf|].
    split; [|done]. unfold alreadyDone. simpl. by rewrite Hex. }
  rewrite Hw, filter_app, length_app.
  pose proof (filter_length_pos (fun w : Row => w !! "Handle" = row !! "Handle")
                existingRows existing Hold Hh).
  pose proof (filter_length_pos (fun w : Row => w !! "Handle" = row !! "Handle")
                W _ Hnew (resultRow_handle brandPhrases fsys api t)).
  lia.
Qed.

Lemma regenerated_record_is_duplicated_witness :
  processRows Scenario.phrases Scenario.disk (Scenario.serviceSaying "Sturdy.")
    (oneByOne 1) [Scenario.mug] [Scenario.mugPending] = Some Scenario.pendingRun /\
  2 <= length (filter (fun w : Row => w !! "Handle" = Scenario.mug !! "Handle")
                 (written Scenario.pendingRun)).
Proof.
  assert (processRows Scenario.phrases Scenario.disk (Scenario.serviceSaying "Sturdy.")
            (oneByOne 1) [Scenario.mug] [Scenario.mugPending]
          = Some Scenario.pendingRun) as Hrun by evaluate.
  split; [exact Hrun|].
  apply (regenerated_record_is_duplicated _ _ _ _ _ _ _ Scenario.mug
           Scenario.mugPending Hrun).
  - constructor.
  - evaluate.
  - evaluate.
Defined.
